(** * Quaternion Julia raymarcher: the fragment shader of [src/main.js]

    The fragment program embedded in [juliaShader.fragmentShader] is
    modelled over the real numbers.  GLSL leaves the result of [log] at a
    non-positive argument and of a division by zero undefined; those
    built-ins are modelled as partial functions ([option]) and the
    undefinedness is threaded through the callers. *)

From Stdlib Require Import Reals Lra Lia ZArith Psatz List.
Import ListNotations.

Open Scope R_scope.

(** ** Vectors *)

Record vec2 : Type := mkvec2 { x2 : R; y2 : R }.
Record vec3 : Type := mkvec3 { x3 : R; y3 : R; z3 : R }.
Record vec4 : Type := mkvec4 { x4 : R; y4 : R; z4 : R; w4 : R }.

(** A small error monad for results that GLSL leaves undefined. *)
Definition bind {A B : Type} (m : option A) (f : A -> option B) : option B :=
  match m with
  | Some a => f a
  | None => None
  end.

Notation "x <- m ;; k" := (bind m (fun x => k))
  (at level 61, m at next level, right associativity).

(** ** GLSL built-ins used by the shader *)
Module Glsl.

(** [vec3(s)] *)
Definition splat3 (s : R) : vec3 := mkvec3 s s s.

(** [vec4(v, s)] *)
Definition lift4 (v : vec3) (s : R) : vec4 := mkvec4 (x3 v) (y3 v) (z3 v) s.

Definition add3 (a b : vec3) : vec3 :=
  mkvec3 (x3 a + x3 b) (y3 a + y3 b) (z3 a + z3 b).
Definition sub3 (a b : vec3) : vec3 :=
  mkvec3 (x3 a - x3 b) (y3 a - y3 b) (z3 a - z3 b).
Definition neg3 (a : vec3) : vec3 := mkvec3 (- x3 a) (- y3 a) (- z3 a).
(** vector times scalar and scalar times vector *)
Definition scale3 (a : vec3) (s : R) : vec3 :=
  mkvec3 (x3 a * s) (y3 a * s) (z3 a * s).
Definition lscale3 (s : R) (a : vec3) : vec3 :=
  mkvec3 (s * x3 a) (s * y3 a) (s * z3 a).
(** vector plus scalar *)
Definition adds3 (a : vec3) (s : R) : vec3 :=
  mkvec3 (x3 a + s) (y3 a + s) (z3 a + s).
(** componentwise product *)
Definition mul3 (a b : vec3) : vec3 :=
  mkvec3 (x3 a * x3 b) (y3 a * y3 b) (z3 a * z3 b).
Definition cos3 (a : vec3) : vec3 :=
  mkvec3 (cos (x3 a)) (cos (y3 a)) (cos (z3 a)).

Definition add4 (a b : vec4) : vec4 :=
  mkvec4 (x4 a + x4 b) (y4 a + y4 b) (z4 a + z4 b) (w4 a + w4 b).

Definition dot (a b : vec3) : R :=
  x3 a * x3 b + y3 a * y3 b + z3 a * z3 b.

Definition length (a : vec3) : R :=
  sqrt (x3 a * x3 a + y3 a * y3 a + z3 a * z3 a).

Definition length4 (a : vec4) : R :=
  sqrt (x4 a * x4 a + y4 a * y4 a + z4 a * z4 a + w4 a * w4 a).

(** [min(x, y)] is [y] if [y < x], otherwise [x]. *)
Definition min (x y : R) : R := if Rlt_dec y x then y else x.

(** [max(x, y)] is [y] if [x < y], otherwise [x]. *)
Definition max (x y : R) : R := if Rlt_dec x y then y else x.

(** [log(x)]: undefined if [x <= 0]. *)
Definition log (x : R) : option R :=
  if Rlt_dec 0 x then Some (ln x) else None.

(** [a / b]: undefined if [b = 0]. *)
Definition div (a b : R) : option R :=
  if Req_dec_T b 0 then None else Some (a / b).

(** [pow(x, y)]: undefined if [x < 0], or if [x = 0] and [y <= 0]. *)
Definition pow (x y : R) : option R :=
  if Rlt_dec x 0 then None
  else if Req_dec_T x 0 then
         if Rlt_dec 0 y then Some 0 else None
       else Some (Rpower x y).

(** [normalize(v)] is [v / length(v)]. *)
Definition normalize (v : vec3) : option vec3 :=
  let l := length v in
  x <- div (x3 v) l ;;
  y <- div (y3 v) l ;;
  z <- div (z3 v) l ;;
  Some (mkvec3 x y z).

(** [reflect(I, N)] is [I - 2.0 * dot(N, I) * N]. *)
Definition reflect (i n : vec3) : vec3 :=
  sub3 i (lscale3 (2 * dot n i) n).

End Glsl.

(** ** Shader inputs *)

(** The uniforms of the fragment program ([cameraPosition] is supplied by
    the rendering library with every shader material). *)
Record uniforms : Type := mkuniforms {
  resolution : vec2;
  time : R;
  quaternionC : vec4;
  cameraPosition : vec3
}.

(** The interpolated outputs of the vertex shader. *)
Record varyings : Type := mkvaryings {
  vPosition : vec3;
  vWorldPosition : vec3;
  vNormal : vec3
}.

(** ** Constants *)

Definition MAX_STEPS : nat := 512.
Definition MIN_DIST : R := 0.0001.
Definition MAX_DIST : R := 40.0.
Definition ITERATIONS : nat := 20.
Definition STEP_SCALE : R := 0.45.

(** The value the host program gives to the uniform [quaternionC]. *)
Definition quaternionC_host : vec4 := mkvec4 (-0.2) 0.4 (-0.4) (-0.4).

(** ** Quaternion product *)

Definition qmul (a b : vec4) : vec4 :=
  mkvec4
    (x4 a * x4 b - y4 a * y4 b - z4 a * z4 b - w4 a * w4 b)
    (x4 a * y4 b + y4 a * x4 b + z4 a * w4 b - w4 a * z4 b)
    (x4 a * z4 b - y4 a * w4 b + z4 a * x4 b + w4 a * y4 b)
    (x4 a * w4 b + y4 a * z4 b - z4 a * y4 b + w4 a * x4 b).

(** ** Distance estimator *)

(** The constant [c] after the two time-driven rotations. *)
Definition rotated_c (u : uniforms) : vec4 :=
  let q := quaternionC u in
  let t := time u * 0.2 in
  mkvec4
    (x4 q * cos t - y4 q * sin t)
    (x4 q * sin t + y4 q * cos t)
    (z4 q * cos (t * 0.7) - w4 q * sin (t * 0.7))
    (z4 q * sin (t * 0.7) + w4 q * cos (t * 0.7)).

(** The [for] loop of [DE] with [n] iterations left; the result is the
    pair of [r] and [dr] with which the loop is left. *)
Fixpoint DE_loop (n : nat) (c z : vec4) (dr r : R) : R * R :=
  match n with
  | O => (r, dr)
  | S n' =>
      let r := Glsl.length4 z in
      if Rlt_dec 4.0 r then (r, dr)
      else DE_loop n' c (Glsl.add4 (qmul z z) c) (2.0 * r * dr + 1.0) r
  end.

Definition DE (u : uniforms) (pos : vec3) : option R :=
  let z := Glsl.lift4 pos 0.0 in
  let c := rotated_c u in
  let '(r, dr) := DE_loop ITERATIONS c z 1.0 0.0 in
  l <- Glsl.log r ;;
  Glsl.div (0.5 * l * r) dr.

(** The loop is unfolded last when two terms are compared. *)
Strategy 100 [DE_loop DE].

(** ** Normal estimator *)

(** The vector that [getNormal] normalizes. *)
Definition gradient (u : uniforms) (p : vec3) : option vec3 :=
  let e := mkvec2 MIN_DIST 0.0 in
  let xyy := mkvec3 (x2 e) (y2 e) (y2 e) in
  let yxy := mkvec3 (y2 e) (x2 e) (y2 e) in
  let yyx := mkvec3 (y2 e) (y2 e) (x2 e) in
  a1 <- DE u (Glsl.add3 p xyy) ;;
  a2 <- DE u (Glsl.sub3 p xyy) ;;
  b1 <- DE u (Glsl.add3 p yxy) ;;
  b2 <- DE u (Glsl.sub3 p yxy) ;;
  c1 <- DE u (Glsl.add3 p yyx) ;;
  c2 <- DE u (Glsl.sub3 p yyx) ;;
  Some (mkvec3 (a1 - a2) (b1 - b2) (c1 - c2)).

Definition getNormal (u : uniforms) (p : vec3) : option vec3 :=
  g <- gradient u p ;;
  Glsl.normalize g.

(** ** Ray marcher *)

(** How the [for] loop of [rayMarch] is left: by the [return] inside it,
    or by [break] or exhaustion with the current [t] and [minD]. *)
Inductive loop_exit : Type :=
| Returned (t : R)
| Left (t minD : R).

Fixpoint rayMarch_loop (u : uniforms) (ro rd : vec3) (n : nat) (t minD : R)
  : option loop_exit :=
  match n with
  | O => Some (Left t minD)
  | S n' =>
      let p := Glsl.add3 ro (Glsl.scale3 rd t) in
      e <- DE u p ;;
      let d := e * STEP_SCALE in
      let minD := Glsl.min minD d in
      if Rlt_dec d MIN_DIST then Some (Returned t)
      else if Rlt_dec MAX_DIST t then Some (Left t minD)
      else rayMarch_loop u ro rd n' (t + d) minD
  end.

Definition rayMarch (u : uniforms) (ro rd : vec3) : option R :=
  e <- rayMarch_loop u ro rd MAX_STEPS 0.0 MAX_DIST ;;
  match e with
  | Returned t => Some t
  | Left t minD => if Rlt_dec minD 0.1 then Some t else Some MAX_DIST
  end.

(** ** Palette *)

Definition palette (u : uniforms) (t : R) : vec3 :=
  let a := mkvec3 0.5 0.5 0.5 in
  let b := mkvec3 0.5 0.5 0.5 in
  let c := mkvec3 1.0 1.0 1.0 in
  let d := mkvec3 0.263 0.416 0.557 in
  Glsl.add3 a
    (Glsl.mul3 b
       (Glsl.cos3
          (Glsl.lscale3 6.28318
             (Glsl.adds3 (Glsl.add3 (Glsl.scale3 c t) d) (time u * 0.1))))).

(** ** Fragment entry point *)

(** The value written to [gl_FragColor]: the colour [col], which is
    undefined when a computation it depends on is, and the alpha
    component. *)
Record frag_color : Type := mkfrag_color {
  rgb : option vec3;
  alpha : R
}.

(** The ray direction computed by the first two statements of [main]. *)
Definition ray_dir (u : uniforms) (v : varyings) : option vec3 :=
  rd <- Glsl.normalize (Glsl.sub3 (vWorldPosition v) (cameraPosition u)) ;;
  Glsl.normalize (Glsl.add3 rd (Glsl.scale3 (vNormal v) 0.01)).

(** The body of [if (t < MAX_DIST)] in [main]. *)
Definition shade (u : uniforms) (rd : vec3) (t : R) : option vec3 :=
  let p := Glsl.add3 (cameraPosition u) (Glsl.scale3 rd t) in
  n <- getNormal u p ;;
  light1 <- Glsl.normalize (mkvec3 (sin (time u)) 1.0 (cos (time u))) ;;
  light2 <- Glsl.normalize (mkvec3 (-0.707) 0.707 0.0) ;;
  let diff1 := Glsl.max (Glsl.dot n light1) 0.0 in
  let diff2 := Glsl.max (Glsl.dot n light2) 0.0 in
  spec1 <- Glsl.pow
             (Glsl.max (Glsl.dot (Glsl.reflect (Glsl.neg3 light1) n) (Glsl.neg3 rd)) 0.0)
             32.0 ;;
  spec2 <- Glsl.pow
             (Glsl.max (Glsl.dot (Glsl.reflect (Glsl.neg3 light2) n) (Glsl.neg3 rd)) 0.0)
             32.0 ;;
  let baseColor :=
    palette u (Glsl.length p * 0.5 + Glsl.dot n (Glsl.splat3 1.0) * 0.5) in
  let col :=
    Glsl.add3
      (Glsl.scale3 baseColor (0.2 + 0.4 * diff1 + 0.2 * diff2))
      (Glsl.scale3 (Glsl.scale3 (Glsl.splat3 0.8) (spec1 + spec2)) 0.5) in
  let glow := exp (- Glsl.length p * 1.5) in
  Some (Glsl.add3 col (Glsl.scale3 (Glsl.scale3 baseColor glow) 0.3)).

Definition main (u : uniforms) (v : varyings) : frag_color :=
  let col :=
    rd <- ray_dir u v ;;
    t <- rayMarch u (cameraPosition u) rd ;;
    if Rlt_dec t MAX_DIST then shade u rd t
    else Some (Glsl.splat3 0.0) in
  mkfrag_color col 1.0.

(** * Quaternion product *)

(** The product of section 4.1 of the specification, component by
    component. *)
Definition hamilton_spec (a b : vec4) : vec4 :=
  {| x4 := x4 a * x4 b - y4 a * y4 b - z4 a * z4 b - w4 a * w4 b;
     y4 := x4 a * y4 b + y4 a * x4 b + z4 a * w4 b - w4 a * z4 b;
     z4 := x4 a * z4 b - y4 a * w4 b + z4 a * x4 b + w4 a * y4 b;
     w4 := x4 a * w4 b + y4 a * z4 b - z4 a * y4 b + w4 a * x4 b |}.

(** Hamilton's product as the bilinear extension of the multiplication
    table of the basis 1, i, j, k. *)
Module Hamilton.

Inductive unit_q : Type := U1 | Ui | Uj | Uk.

(** The product of two basis elements: a sign and a basis element. *)
Definition table (p q : unit_q) : R * unit_q :=
  match p, q with
  | U1, q => (1, q)
  | p, U1 => (1, p)
  | Ui, Ui => (-1, U1) | Ui, Uj => (1, Uk)  | Ui, Uk => (-1, Uj)
  | Uj, Ui => (-1, Uk) | Uj, Uj => (-1, U1) | Uj, Uk => (1, Ui)
  | Uk, Ui => (1, Uj)  | Uk, Uj => (-1, Ui) | Uk, Uk => (-1, U1)
  end.

Definition coord (a : vec4) (p : unit_q) : R :=
  match p with U1 => x4 a | Ui => y4 a | Uj => z4 a | Uk => w4 a end.

Definition unit_eqb (p q : unit_q) : bool :=
  match p, q with
  | U1, U1 | Ui, Ui | Uj, Uj | Uk, Uk => true
  | _, _ => false
  end.

Definition units : list unit_q := [U1; Ui; Uj; Uk].

Definition sum (l : list R) : R := fold_right Rplus 0 l.

(** The coefficient of [e] in the product of [a] and [b]. *)
Definition coeff (a b : vec4) (e : unit_q) : R :=
  sum (map (fun p =>
    sum (map (fun q =>
      let '(s, r) := table p q in
      if unit_eqb r e then s * coord a p * coord b q else 0) units)) units).

Definition product (a b : vec4) : vec4 :=
  mkvec4 (coeff a b U1) (coeff a b Ui) (coeff a b Uj) (coeff a b Uk).

End Hamilton.

Definition q_one : vec4 := mkvec4 1 0 0 0.
Definition q_i : vec4 := mkvec4 0 1 0 0.
Definition q_j : vec4 := mkvec4 0 0 1 0.
Definition q_k : vec4 := mkvec4 0 0 0 1.

Lemma vec4_eq (a b : vec4) :
  x4 a = x4 b -> y4 a = y4 b -> z4 a = z4 b -> w4 a = w4 b -> a = b.
Proof. destruct a, b; simpl; intros; subst; reflexivity. Qed.

Lemma vec3_eq (a b : vec3) :
  x3 a = x3 b -> y3 a = y3 b -> z3 a = z3 b -> a = b.
Proof. destruct a, b; simpl; intros; subst; reflexivity. Qed.

Lemma qmul_table_product (a b : vec4) : qmul a b = Hamilton.product a b.
Proof.
  apply vec4_eq; unfold qmul, Hamilton.product, Hamilton.coeff, Hamilton.sum;
    simpl; ring.
Qed.

(** C3: [qmul a b] is the Hamilton product of [a] and [b], component by
    component as the specification writes it; it is a function of its two
    arguments only, and agrees with the bilinear extension of the
    multiplication table of 1, i, j, k. *)
Theorem qmul_is_hamilton_product (a b : vec4) :
  qmul a b = hamilton_spec a b /\ hamilton_spec a b = Hamilton.product a b.
Proof.
  split.
  - reflexivity.
  - rewrite <- qmul_table_product. reflexivity.
Qed.

(** C8: [(1,0,0,0)] is a right identity of [qmul], the sample product
    [qmul (1,0,0,0) (0,1,0,0)] is [(0,1,0,0)], and [qmul] is not
    commutative. *)
Theorem qmul_identity_sample_noncomm :
  (forall q : vec4, qmul q (mkvec4 1 0 0 0) = q) /\
  qmul (mkvec4 1 0 0 0) (mkvec4 0 1 0 0) = mkvec4 0 1 0 0 /\
  (exists a b : vec4, qmul a b <> qmul b a).
Proof.
  split; [| split].
  - intros q. apply vec4_eq; simpl; ring.
  - apply vec4_eq; simpl; ring.
  - exists q_i, q_j. intros H.
    apply (f_equal w4) in H. simpl in H. lra.
Qed.

(** * Palette *)

Lemma half_cos_bounds (x : R) : 0 <= 0.5 + 0.5 * cos x <= 1.
Proof. pose proof (COS_bound x). lra. Qed.

Lemma cos_wave_ext (a b : R) :
  a = b -> 0.5 + 0.5 * cos (6.28318 * a) = 0.5 + 0.5 * cos (6.28318 * b).
Proof. intros ->. reflexivity. Qed.

Lemma palette_components (u : uniforms) (t : R) :
  palette u t =
  mkvec3 (0.5 + 0.5 * cos (6.28318 * (1.0 * t + 0.263 + time u * 0.1)))
         (0.5 + 0.5 * cos (6.28318 * (1.0 * t + 0.416 + time u * 0.1)))
         (0.5 + 0.5 * cos (6.28318 * (1.0 * t + 0.557 + time u * 0.1))).
Proof. reflexivity. Qed.

(** The argument at which [main] evaluates the palette. *)
Definition base_arg (p n : vec3) : R :=
  Glsl.length p * 0.5 + Glsl.dot n (Glsl.splat3 1.0) * 0.5.

(** C10: each component of [palette t] is
    [0.5 + 0.5 * cos (6.28318 * (t + d_i + time * 0.1))] and lies in
    [[0, 1]]; so does the base colour of the shading, whatever the hit
    point and the normal. *)
Theorem palette_in_unit_interval (u : uniforms) (t : R) :
  (x3 (palette u t) = 0.5 + 0.5 * cos (6.28318 * (t + 0.263 + time u * 0.1)) /\
   y3 (palette u t) = 0.5 + 0.5 * cos (6.28318 * (t + 0.416 + time u * 0.1)) /\
   z3 (palette u t) = 0.5 + 0.5 * cos (6.28318 * (t + 0.557 + time u * 0.1))) /\
  (0 <= x3 (palette u t) <= 1 /\
   0 <= y3 (palette u t) <= 1 /\
   0 <= z3 (palette u t) <= 1) /\
  (forall p n : vec3,
     let baseColor := palette u (base_arg p n) in
     0 <= x3 baseColor <= 1 /\ 0 <= y3 baseColor <= 1 /\ 0 <= z3 baseColor <= 1).
Proof.
  assert (B : forall s, 0 <= x3 (palette u s) <= 1 /\
                        0 <= y3 (palette u s) <= 1 /\
                        0 <= z3 (palette u s) <= 1).
  { intros s. rewrite palette_components. simpl.
    repeat split; apply half_cos_bounds. }
  split; [| split].
  - rewrite palette_components. simpl.
    repeat split; apply cos_wave_ext; lra.
  - apply B.
  - intros p n. apply B.
Qed.

(** * Distance estimator *)

(** ** The procedure of section 4.2 of the specification *)

(** The standard rotation of the plane by the angle [a]. *)
Definition rot2 (x y a : R) : R * R :=
  (x * cos a - y * sin a, x * sin a + y * cos a).

Definition spec_c (u : uniforms) : vec4 :=
  let q := quaternionC u in
  let '(cx, cy) := rot2 (x4 q) (y4 q) (time u * 0.2) in
  let '(cz, cw) := rot2 (z4 q) (w4 q) (time u * 0.2 * 0.7) in
  mkvec4 cx cy cz cw.

Section Orbit.

Variables c z0 : vec4.

Definition julia_step (z : vec4) : vec4 := Glsl.add4 (qmul z z) c.

(** [orbit k] is [z] after [k] updates, [dr_at k] is [dr] after [k]
    updates. *)
Definition orbit (k : nat) : vec4 := Nat.iter k julia_step z0.

Fixpoint dr_at (k : nat) : R :=
  match k with
  | O => 1
  | S k' => 2 * Glsl.length4 (orbit k') * dr_at k' + 1
  end.

Definition escaped (k : nat) : Prop := 4 < Glsl.length4 (orbit k).

Lemma length4_nonneg (z : vec4) : 0 <= Glsl.length4 z.
Proof. apply sqrt_pos. Qed.

Lemma dr_at_ge_1 (k : nat) : 1 <= dr_at k.
Proof.
  induction k as [| k IH]; simpl.
  - lra.
  - pose proof (length4_nonneg (orbit k)). nra.
Qed.

(** The loop started at the [i]-th iterate with [n] iterations left
    stops at some [k]: either [k] is the first escaped iterate, or all
    [n] iterations were completed. *)
Lemma DE_loop_orbit (n : nat) :
  forall (i : nat) (r0 : R),
  exists k : nat,
    (i <= k <= i + n)%nat /\
    (forall j : nat, (i <= j < k)%nat -> ~ escaped j) /\
    ((k < i + n)%nat /\ escaped k /\
       DE_loop n c (orbit i) (dr_at i) r0
       = (Glsl.length4 (orbit k), dr_at k)
     \/
     k = (i + n)%nat /\
       DE_loop n c (orbit i) (dr_at i) r0
       = (match n with
          | O => r0
          | S _ => Glsl.length4 (orbit (k - 1))
          end, dr_at k)).
Proof.
  induction n as [| n IH]; intros i r0.
  - exists i. split; [lia |]. split; [intros j Hj; lia |].
    right. split; [lia | reflexivity].
  - simpl DE_loop.
    destruct (Rlt_dec 4.0 (Glsl.length4 (orbit i))) as [He | Hne].
    + exists i. split; [lia |]. split; [intros j Hj; lia |].
      left. split; [lia |]. split; [| reflexivity].
      unfold escaped. lra.
    + replace (2.0 * Glsl.length4 (orbit i) * dr_at i + 1.0)
        with (dr_at (S i)) by (simpl; lra).
      change (Glsl.add4 (qmul (orbit i) (orbit i)) c) with (orbit (S i)).
      destruct (IH (S i) (Glsl.length4 (orbit i)))
        as (k & Hk & Hbefore & Hend).
      exists k. split; [lia |]. split.
      * intros j Hj. destruct (Nat.eq_dec j i) as [-> | Hji].
        -- unfold escaped. lra.
        -- apply Hbefore. lia.
      * destruct Hend as [(Hlt & Hesc & Heq) | (Hk' & Heq)].
        -- left. split; [lia |]. split; [exact Hesc | exact Heq].
        -- right. split; [lia |]. rewrite Heq. f_equal.
           destruct n as [| n'].
           ++ f_equal. f_equal. lia.
           ++ reflexivity.
Qed.

End Orbit.

Lemma rotated_c_spec (u : uniforms) : rotated_c u = spec_c u.
Proof. reflexivity. Qed.

Lemma div_defined (a b : R) : b <> 0 -> Glsl.div a b = Some (a / b).
Proof.
  intros Hb. unfold Glsl.div.
  destruct (Req_dec_T b 0) as [E | _]; [contradiction | reflexivity].
Qed.

(** C2: [DE] lifts [pos] to [(pos.x, pos.y, pos.z, 0)], rotates the
    constant by [time * 0.2] and [time * 0.2 * 0.7], runs at most 20
    iterations of [r = |z|], break if [r > 4], [dr = 2 * r * dr + 1],
    [z = qmul z z + c], and returns [0.5 * log r * r / dr]: [k] is the
    number of completed updates, [r] the last radius computed. *)
Theorem DE_follows_procedure (u : uniforms) (pos : vec3) :
  let z0 := mkvec4 (x3 pos) (y3 pos) (z3 pos) 0 in
  let c := spec_c u in
  exists (k : nat) (r dr : R),
    (k <= 20)%nat /\
    (forall j : nat, (j < k)%nat -> ~ 4 < Glsl.length4 (orbit c z0 j)) /\
    ((k < 20)%nat ->
       4 < Glsl.length4 (orbit c z0 k) /\ r = Glsl.length4 (orbit c z0 k)) /\
    (k = 20%nat -> r = Glsl.length4 (orbit c z0 19)) /\
    dr = dr_at c z0 k /\
    DE u pos = (l <- Glsl.log r ;; Some (0.5 * l * r / dr)).
Proof.
  intros z0 c.
  destruct (DE_loop_orbit c z0 ITERATIONS 0 0.0)
    as (k & Hk & Hbefore & Hend).
  assert (Hret : forall r dr,
            DE_loop ITERATIONS c z0 1.0 0.0 = (r, dr) -> dr = dr_at c z0 k ->
            DE u pos = (l <- Glsl.log r ;; Some (0.5 * l * r / dr))).
  { intros r dr Hloop Hdr. unfold DE.
    rewrite rotated_c_spec. fold c.
    replace (Glsl.lift4 pos 0.0) with z0
      by (unfold z0, Glsl.lift4; f_equal; lra).
    rewrite Hloop. unfold bind.
    destruct (Glsl.log r) as [l |]; [| reflexivity].
    apply div_defined. pose proof (dr_at_ge_1 c z0 k). lra. }
  assert (Hstart : DE_loop ITERATIONS c (orbit c z0 0) (dr_at c z0 0) 0.0
                   = DE_loop ITERATIONS c z0 1.0 0.0).
  { simpl orbit. simpl dr_at. f_equal. lra. }
  rewrite Hstart in Hend. unfold ITERATIONS in *.
  destruct Hend as [(Hlt & Hesc & Heq) | (Hk' & Heq)].
  - exists k, (Glsl.length4 (orbit c z0 k)), (dr_at c z0 k).
    split; [lia |]. split; [intros j Hj; apply Hbefore; lia |].
    split; [intros _; split; [exact Hesc | reflexivity] |].
    split; [intros E; lia |]. split; [reflexivity |].
    apply Hret; [exact Heq | reflexivity].
  - exists k, (Glsl.length4 (orbit c z0 (k - 1))), (dr_at c z0 k).
    split; [lia |]. split; [intros j Hj; apply Hbefore; lia |].
    split; [intros Hlt; lia |].
    split; [intros E; do 2 f_equal; lia |]. split; [reflexivity |].
    apply Hret; [exact Heq | reflexivity].
Qed.

(** * Ray marcher *)

Section March.

Variable u : uniforms.
Variables ro rd : vec3.

(** ** The march of section 4.3 of the specification *)

(** The damped distance estimate at travel distance [t]. *)
Definition damped (t : R) : option R :=
  e <- DE u (Glsl.add3 ro (Glsl.scale3 rd t)) ;;
  Some (e * STEP_SCALE).

(** The travel distance after [k] steps, each advancing by the damped
    distance. *)
Fixpoint travel (k : nat) : option R :=
  match k with
  | O => Some 0
  | S k' => t <- travel k' ;; d <- damped t ;; Some (t + d)
  end.

(** The [k]-th sample: the travel distance and the damped distance
    observed there. *)
Definition sample (k : nat) : option (R * R) :=
  t <- travel k ;; d <- damped t ;; Some (t, d).

(** The march goes on after the [k]-th sample: no hit, and the maximum
    distance is not exceeded. *)
Definition goes_on (k : nat) : Prop :=
  exists t d : R,
    sample k = Some (t, d) /\ ~ d < MIN_DIST /\ ~ MAX_DIST < t.

(** A damped distance below the tolerance 0.1 was observed among the
    first [k] samples. *)
Definition near_upto (k : nat) : Prop :=
  exists (j : nat) (t d : R),
    (j < k)%nat /\ sample j = Some (t, d) /\ d < 0.1.

Inductive march_spec : R -> Prop :=
| spec_hit (k : nat) (t d : R) :
    (k < 512)%nat -> (forall j, (j < k)%nat -> goes_on j) ->
    sample k = Some (t, d) -> d < MIN_DIST ->
    march_spec t
| spec_near_far (k : nat) (t d : R) :
    (k < 512)%nat -> (forall j, (j < k)%nat -> goes_on j) ->
    sample k = Some (t, d) -> ~ d < MIN_DIST -> MAX_DIST < t ->
    near_upto (S k) ->
    march_spec t
| spec_miss_far (k : nat) (t d : R) :
    (k < 512)%nat -> (forall j, (j < k)%nat -> goes_on j) ->
    sample k = Some (t, d) -> ~ d < MIN_DIST -> MAX_DIST < t ->
    ~ near_upto (S k) ->
    march_spec MAX_DIST
| spec_near_exhausted (t : R) :
    (forall j, (j < 512)%nat -> goes_on j) ->
    travel 512 = Some t -> near_upto 512 ->
    march_spec t
| spec_miss_exhausted :
    (forall j, (j < 512)%nat -> goes_on j) ->
    ~ near_upto 512 ->
    march_spec MAX_DIST.

(** ** The loop against the samples *)

(** What the loop started before sample [i] with [n] steps left ends
    with. *)
Inductive loop_outcome (i n : nat) : option loop_exit -> Prop :=
| out_undefined (k : nat) :
    (i <= k < i + n)%nat -> (forall j, (j < k)%nat -> goes_on j) ->
    sample k = None ->
    loop_outcome i n None
| out_hit (k : nat) (t d : R) :
    (i <= k < i + n)%nat -> (forall j, (j < k)%nat -> goes_on j) ->
    sample k = Some (t, d) -> d < MIN_DIST ->
    loop_outcome i n (Some (Returned t))
| out_far (k : nat) (t d m : R) :
    (i <= k < i + n)%nat -> (forall j, (j < k)%nat -> goes_on j) ->
    sample k = Some (t, d) -> ~ d < MIN_DIST -> MAX_DIST < t ->
    (m < 0.1 <-> near_upto (S k)) ->
    loop_outcome i n (Some (Left t m))
| out_exhausted (t m : R) :
    (forall j, (j < i + n)%nat -> goes_on j) ->
    travel (i + n) = Some t ->
    (m < 0.1 <-> near_upto (i + n)) ->
    loop_outcome i n (Some (Left t m)).

Lemma glsl_min_lt (a b x : R) : Glsl.min a b < x <-> a < x \/ b < x.
Proof. unfold Glsl.min. destruct (Rlt_dec b a); lra. Qed.

Lemma near_upto_S (k : nat) (t d : R) :
  sample k = Some (t, d) ->
  (near_upto (S k) <-> near_upto k \/ d < 0.1).
Proof.
  intros Hs. split.
  - intros (j & t' & d' & Hj & Hs' & Hd).
    destruct (Nat.eq_dec j k) as [-> | Hne].
    + right. rewrite Hs in Hs'. inversion Hs'. subst. exact Hd.
    + left. exists j, t', d'. repeat split; auto. lia.
  - intros [(j & t' & d' & Hj & Hs' & Hd) | Hd].
    + exists j, t', d'. repeat split; auto.
    + exists k, t, d. repeat split; auto.
Qed.

Lemma rayMarch_loop_outcome (n : nat) :
  forall (i : nat) (t minD : R),
    (forall j, (j < i)%nat -> goes_on j) ->
    travel i = Some t ->
    (minD < 0.1 <-> near_upto i) ->
    loop_outcome i n (rayMarch_loop u ro rd n t minD).
Proof.
  induction n as [| n IH]; intros i t minD Hgo Ht Hmin.
  - simpl. apply out_exhausted; rewrite Nat.add_0_r; assumption.
  - simpl rayMarch_loop.
    assert (Hsample : sample i = (d <- damped t ;; Some (t, d))).
    { unfold sample. rewrite Ht. reflexivity. }
    unfold damped in Hsample.
    destruct (DE u (Glsl.add3 ro (Glsl.scale3 rd t))) as [e |] eqn:HDE;
      simpl in Hsample |- *.
    2: { apply out_undefined with (k := i); auto. lia. }
    assert (Hmin' : Glsl.min minD (e * STEP_SCALE) < 0.1 <-> near_upto (S i)).
    { rewrite glsl_min_lt, (near_upto_S i t (e * STEP_SCALE) Hsample).
      tauto. }
    destruct (Rlt_dec (e * STEP_SCALE) MIN_DIST) as [Hhit | Hnohit].
    { apply out_hit with (k := i) (d := e * STEP_SCALE); auto. lia. }
    destruct (Rlt_dec MAX_DIST t) as [Hfar | Hnear].
    { apply out_far with (k := i) (d := e * STEP_SCALE); auto. lia. }
    assert (Hgo' : forall j, (j < S i)%nat -> goes_on j).
    { intros j Hj. destruct (Nat.eq_dec j i) as [-> | Hne].
      - exists t, (e * STEP_SCALE). auto.
      - apply Hgo. lia. }
    assert (Ht' : travel (S i) = Some (t + e * STEP_SCALE)).
    { simpl. rewrite Ht. simpl. unfold damped. rewrite HDE. reflexivity. }
    specialize (IH (S i) (t + e * STEP_SCALE) _ Hgo' Ht' Hmin').
    assert (E : (i + S n = S i + n)%nat) by lia.
    destruct IH as [k Hk Hb Hs | k t' d Hk Hb Hs Hd
                   | k t' d m Hk Hb Hs Hd Hf Hm | t' m Hb Ht'' Hm].
    + apply out_undefined with (k := k); auto. lia.
    + apply out_hit with (k := k) (d := d); auto. lia.
    + apply out_far with (k := k) (d := d); auto. lia.
    + apply out_exhausted; rewrite E; assumption.
Qed.

(** ** The first sample that stops the march is unique *)

Lemma first_stop_unique (k k' : nat) :
  (forall j, (j < k)%nat -> goes_on j) -> ~ goes_on k ->
  (forall j, (j < k')%nat -> goes_on j) -> ~ goes_on k' ->
  k = k'.
Proof.
  intros Hk Hsk Hk' Hsk'.
  destruct (Nat.lt_trichotomy k k') as [Hlt | [Heq | Hgt]]; auto.
  - exfalso. apply Hsk. apply Hk'. exact Hlt.
  - exfalso. apply Hsk'. apply Hk. exact Hgt.
Qed.

Lemma stop_undefined (k : nat) : sample k = None -> ~ goes_on k.
Proof. intros Hs (t & d & Hs' & _). congruence. Qed.

Lemma stop_hit (k : nat) (t d : R) :
  sample k = Some (t, d) -> d < MIN_DIST -> ~ goes_on k.
Proof.
  intros Hs Hd (t' & d' & Hs' & Hnd & _).
  rewrite Hs in Hs'. inversion Hs'. subst. contradiction.
Qed.

Lemma stop_far (k : nat) (t d : R) :
  sample k = Some (t, d) -> MAX_DIST < t -> ~ goes_on k.
Proof.
  intros Hs Hd (t' & d' & Hs' & _ & Hnt).
  rewrite Hs in Hs'. inversion Hs'. subst. contradiction.
Qed.

End March.

Lemma rayMarch_outcome (u : uniforms) (ro rd : vec3) :
  loop_outcome u ro rd 0 512 (rayMarch_loop u ro rd MAX_STEPS 0.0 MAX_DIST).
Proof.
  apply rayMarch_loop_outcome.
  - intros j Hj. lia.
  - simpl. f_equal. lra.
  - split.
    + unfold MAX_DIST. lra.
    + intros (j & _ & _ & Hj & _). lia.
Qed.

(** Two descriptions of the sample that stops the march agree. *)
Ltac stops :=
  first [ eapply stop_hit; eassumption
        | eapply stop_far; eassumption
        | eapply stop_undefined; eassumption ].

Ltac same_stop k k' :=
  match goal with
  | H : forall j, (j < k)%nat -> goes_on ?u ?ro ?rd j |- _ =>
      assert (k = k') by
        (apply (first_stop_unique u ro rd k k'); [assumption | stops | assumption | stops]);
      subst k'
  end.

Ltac never_stops Hall k :=
  match type of Hall with
  | forall j, _ -> goes_on ?u ?ro ?rd j =>
      exfalso;
      assert (~ goes_on u ro rd k) as Hstop by stops;
      apply Hstop; apply Hall; lia
  end.

Ltac same_sample :=
  match goal with
  | H1 : sample _ _ _ ?k = Some _, H2 : sample _ _ _ ?k = Some _ |- _ =>
      rewrite H1 in H2; inversion H2; subst; clear H2
  | H1 : sample _ _ _ ?k = Some _, H2 : sample _ _ _ ?k = None |- _ =>
      rewrite H1 in H2; discriminate H2
  | H1 : travel _ _ _ ?k = Some _, H2 : travel _ _ _ ?k = Some _ |- _ =>
      rewrite H1 in H2; inversion H2; subst; clear H2
  end.

Lemma rayMarch_is_march (u : uniforms) (ro rd : vec3) (v : R) :
  rayMarch u ro rd = Some v -> march_spec u ro rd v.
Proof.
  pose proof (rayMarch_outcome u ro rd) as Hout.
  unfold rayMarch.
  intros Hret.
  destruct Hout as [k Hk Hb Hs | k t d Hk Hb Hs Hd
                    | k t d m Hk Hb Hs Hd Hf Hm | t m Hb Ht Hm];
    simpl in Hret.
  + discriminate Hret.
  + inversion Hret; subst.
    apply spec_hit with (k := k) (d := d); auto; lia.
  + destruct (Rlt_dec m 0.1) as [Hnear | Hfarther];
      inversion Hret; subst.
    * apply spec_near_far with (k := k) (d := d); auto; [lia | tauto].
    * apply spec_miss_far with (k := k) (t := t) (d := d); auto;
        [lia | tauto].
  + destruct (Rlt_dec m 0.1) as [Hnear | Hfarther];
      inversion Hret; subst.
    * apply spec_near_exhausted; auto; tauto.
    * apply spec_miss_exhausted; auto; tauto.
Qed.

Lemma march_is_rayMarch (u : uniforms) (ro rd : vec3) (v : R) :
  march_spec u ro rd v -> rayMarch u ro rd = Some v.
Proof.
  pose proof (rayMarch_outcome u ro rd) as Hout.
  unfold rayMarch.
  intros Hspec.
  destruct Hspec as [k t d Hk Hb Hs Hd | k t d Hk Hb Hs Hd Hf Hn
                     | k t d Hk Hb Hs Hd Hf Hn | t Hb Ht Hn | Hb Hn];
    destruct Hout as [k' Hk' Hb' Hs' | k' t' d' Hk' Hb' Hs' Hd'
                      | k' t' d' m Hk' Hb' Hs' Hd' Hf' Hm
                      | t' m Hb' Ht' Hm];
    simpl;
    try (same_stop k k'; same_sample);
    try (never_stops Hb k');
    try (never_stops Hb' k);
    try contradiction;
    try reflexivity;
    try (destruct (Rlt_dec m 0.1); [reflexivity | tauto]);
    try (destruct (Rlt_dec m 0.1); [tauto | reflexivity]).
  change (0 + 512)%nat with 512%nat in *.
  same_sample. destruct (Rlt_dec m 0.1); [reflexivity | tauto].
Qed.

(** C1: [rayMarch] is the march of the specification.  It returns [v]
    exactly when: some sample [k < 512] is the first with a damped
    distance below [1e-4] and [v] is the travel distance there (a hit); or
    the march is stopped by [t > 40.0] or by the exhaustion of its 512
    steps, and [v] is the current travel distance if a damped distance
    below [0.1] was observed, and [40.0] otherwise.  The travel distance
    advances at each step by the distance estimate times [0.45]. *)
Theorem rayMarch_follows_march (u : uniforms) (ro rd : vec3) (v : R) :
  rayMarch u ro rd = Some v <-> march_spec u ro rd v.
Proof.
  split.
  - apply rayMarch_is_march.
  - apply march_is_rayMarch.
Qed.

(** * Shading *)

(** ** The shading model of section 4.5 of the specification *)

(** The unit vector in the direction of [v]. *)
Definition unit3 (v : vec3) : vec3 :=
  mkvec3 (x3 v / Glsl.length v) (y3 v / Glsl.length v) (z3 v / Glsl.length v).

Definition light1_spec (u : uniforms) : vec3 :=
  unit3 (mkvec3 (sin (time u)) 1 (cos (time u))).

Definition light2_spec : vec3 := unit3 (mkvec3 (-0.707) 0.707 0).

(** The clamped Lambertian term. *)
Definition lambert (n l : vec3) : R := Rmax (Glsl.dot n l) 0.

(** The specular term of shininess 32. *)
Definition specular (n l rd : vec3) : R :=
  Rmax (Glsl.dot (Glsl.reflect (Glsl.neg3 l) n) (Glsl.neg3 rd)) 0 ^ 32.

(** One component of the final colour, from the same component [b] of
    the base colour. *)
Definition shade_component
  (b diff1 diff2 spec1 spec2 hit_norm : R) : R :=
  b * (0.2 + 0.4 * diff1 + 0.2 * diff2) + 0.8 * (spec1 + spec2) * 0.5
  + b * exp (- hit_norm * 1.5) * 0.3.

Definition shade_spec (u : uniforms) (rd p n : vec3) : vec3 :=
  let baseColor := palette u (base_arg p n) in
  let diff1 := lambert n (light1_spec u) in
  let diff2 := lambert n light2_spec in
  let spec1 := specular n (light1_spec u) rd in
  let spec2 := specular n light2_spec rd in
  let f b := shade_component b diff1 diff2 spec1 spec2 (Glsl.length p) in
  mkvec3 (f (x3 baseColor)) (f (y3 baseColor)) (f (z3 baseColor)).

(** ** The built-ins on the arguments the shading gives them *)

Lemma glsl_max_Rmax (a : R) : Glsl.max a 0.0 = Rmax a 0.
Proof.
  unfold Glsl.max, Rmax.
  destruct (Rlt_dec a 0.0) as [H | H]; destruct (Rle_dec a 0) as [H' | H'];
    lra.
Qed.

Lemma normalize_defined (v : vec3) :
  0 < x3 v * x3 v + y3 v * y3 v + z3 v * z3 v ->
  Glsl.normalize v = Some (unit3 v).
Proof.
  intros Hpos. unfold Glsl.normalize.
  assert (Hl : Glsl.length v <> 0).
  { unfold Glsl.length. pose proof (sqrt_lt_R0 _ Hpos). lra. }
  rewrite !div_defined by exact Hl. reflexivity.
Qed.

Lemma normalize_zero_length (v : vec3) :
  Glsl.length v = 0 -> Glsl.normalize v = None.
Proof.
  intros Hl. unfold Glsl.normalize, Glsl.div. rewrite Hl.
  destruct (Req_dec_T 0 0) as [_ | H]; [reflexivity | contradiction].
Qed.

Lemma light1_defined (u : uniforms) :
  Glsl.normalize (mkvec3 (sin (time u)) 1.0 (cos (time u)))
  = Some (light1_spec u).
Proof.
  replace 1.0 with 1 by lra.
  apply normalize_defined. simpl.
  pose proof (sin2_cos2 (time u)) as H. unfold Rsqr in H. nra.
Qed.

Lemma light2_defined :
  Glsl.normalize (mkvec3 (-0.707) 0.707 0.0) = Some light2_spec.
Proof.
  replace 0.0 with 0 by lra.
  apply normalize_defined. simpl. lra.
Qed.

Lemma pow32_defined (a : R) :
  Glsl.pow (Glsl.max a 0.0) 32.0 = Some (Rmax a 0 ^ 32).
Proof.
  rewrite glsl_max_Rmax. unfold Glsl.pow.
  pose proof (Rmax_r a 0) as Hge.
  destruct (Rlt_dec (Rmax a 0) 0) as [Hneg | _]; [lra |].
  destruct (Req_dec_T (Rmax a 0) 0) as [Hz | Hnz].
  - destruct (Rlt_dec 0 32.0) as [_ | H]; [| lra].
    rewrite Hz. f_equal. simpl. ring.
  - f_equal. replace 32.0 with (INR 32) by (simpl; lra).
    apply Rpower_pow. lra.
Qed.

Lemma shade_follows_spec (u : uniforms) (rd : vec3) (t : R) :
  shade u rd t =
  (let p := Glsl.add3 (cameraPosition u) (Glsl.scale3 rd t) in
   n <- getNormal u p ;; Some (shade_spec u rd p n)).
Proof.
  unfold shade. cbv zeta.
  destruct (getNormal u _) as [n |]; [| reflexivity]. simpl bind.
  rewrite light1_defined, light2_defined. simpl bind.
  rewrite !pow32_defined. simpl bind.
  rewrite !glsl_max_Rmax. reflexivity.
Qed.

(** C7: the alpha written to [gl_FragColor] is 1 for every fragment; for
    a march result [t] that is not below 40.0 the colour is black; for
    [t < 40.0] it is, component by component,
    [base * (0.2 + 0.4 * diff1 + 0.2 * diff2) + 0.8 * (spec1 + spec2) * 0.5
     + base * exp (- |p| * 1.5) * 0.3]
    with the clamped Lambertian and the shininess-32 specular terms of the
    lights [normalize (sin time, 1, cos time)] and
    [normalize (-0.707, 0.707, 0)], [n] being the normal at the hit point
    [p]. *)
Theorem main_color (u : uniforms) (v : varyings) :
  alpha (main u v) = 1 /\
  (forall (rd : vec3) (t : R),
     ray_dir u v = Some rd ->
     rayMarch u (cameraPosition u) rd = Some t ->
     (~ t < 40.0 -> rgb (main u v) = Some (mkvec3 0 0 0)) /\
     (t < 40.0 ->
      let p := Glsl.add3 (cameraPosition u) (Glsl.scale3 rd t) in
      forall n : vec3,
        getNormal u p = Some n ->
        rgb (main u v) = Some (shade_spec u rd p n))).
Proof.
  split.
  - simpl. lra.
  - intros rd t Hrd Ht. unfold main. simpl rgb.
    rewrite Hrd. simpl bind. rewrite Ht. simpl bind. unfold MAX_DIST.
    destruct (Rlt_dec t 40.0) as [Hhit | Hmiss]; split; intros H; try lra.
    + intros n Hn. rewrite shade_follows_spec. cbv zeta.
      rewrite Hn. reflexivity.
    + unfold Glsl.splat3. do 2 f_equal; lra.
Qed.

(** * Frames and points used in the examples *)

Definition origin : vec3 := mkvec3 0 0 0.

(** The uniforms of the first frame: [time] is 0, the constant is the
    host's, the camera is at [(1, 1, 1)]. *)
Definition first_frame : uniforms :=
  mkuniforms (mkvec2 800 600) 0 quaternionC_host (mkvec3 1 1 1).

(** * Where the distance estimate is defined *)

(** The radius [r] and the derivative proxy [dr] with which the loop of
    [DE] is left. *)
Definition DE_exit (u : uniforms) (pos : vec3) : R * R :=
  DE_loop ITERATIONS (rotated_c u) (Glsl.lift4 pos 0.0) 1.0 0.0.

Definition DE_radius (u : uniforms) (pos : vec3) : R := fst (DE_exit u pos).
Definition DE_dr (u : uniforms) (pos : vec3) : R := snd (DE_exit u pos).

Lemma DE_loop_S (n : nat) (c z : vec4) (dr r : R) :
  DE_loop (S n) c z dr r =
  if Rlt_dec 4.0 (Glsl.length4 z) then (Glsl.length4 z, dr)
  else DE_loop n c (Glsl.add4 (qmul z z) c)
         (2.0 * Glsl.length4 z * dr + 1.0) (Glsl.length4 z).
Proof. reflexivity. Qed.

Lemma DE_loop_dr_ge_1 (n : nat) :
  forall (c z : vec4) (dr r : R),
    1 <= dr -> 1 <= snd (DE_loop n c z dr r).
Proof.
  induction n as [| n IH]; intros c z dr r Hdr.
  - exact Hdr.
  - rewrite DE_loop_S.
    destruct (Rlt_dec 4.0 (Glsl.length4 z)) as [_ | _].
    + exact Hdr.
    + apply IH. pose proof (length4_nonneg z). nra.
Qed.

Lemma DE_loop_radius_nonneg (n : nat) :
  forall (c z : vec4) (dr r : R),
    0 <= r -> 0 <= fst (DE_loop n c z dr r).
Proof.
  induction n as [| n IH]; intros c z dr r Hr.
  - exact Hr.
  - rewrite DE_loop_S.
    destruct (Rlt_dec 4.0 (Glsl.length4 z)) as [_ | _].
    + apply length4_nonneg.
    + apply IH. apply length4_nonneg.
Qed.

Lemma DE_dr_ge_1 (u : uniforms) (pos : vec3) : 1 <= DE_dr u pos.
Proof. apply DE_loop_dr_ge_1. lra. Qed.

Lemma DE_radius_nonneg (u : uniforms) (pos : vec3) : 0 <= DE_radius u pos.
Proof. apply DE_loop_radius_nonneg. lra. Qed.

Lemma DE_value (u : uniforms) (pos : vec3) :
  DE u pos =
  if Rlt_dec 0 (DE_radius u pos)
  then Some (0.5 * ln (DE_radius u pos) * DE_radius u pos / DE_dr u pos)
  else None.
Proof.
  pose proof (DE_dr_ge_1 u pos) as Hdr.
  unfold DE, DE_radius, DE_dr, DE_exit in *.
  destruct (DE_loop ITERATIONS (rotated_c u) (Glsl.lift4 pos 0.0) 1.0 0.0)
    as [r dr].
  simpl in *. unfold Glsl.log.
  destruct (Rlt_dec 0 r) as [_ | _]; [| reflexivity].
  simpl. apply div_defined. lra.
Qed.

(** A point farther than 4 from the origin escapes at once. *)
Lemma DE_far (u : uniforms) (pos : vec3) :
  4 < Glsl.length pos ->
  DE u pos = Some (0.5 * ln (Glsl.length pos) * Glsl.length pos).
Proof.
  intros Hfar.
  assert (Hlen : Glsl.length4 (Glsl.lift4 pos 0.0) = Glsl.length pos).
  { unfold Glsl.length4, Glsl.length, Glsl.lift4. simpl. f_equal. lra. }
  assert (Hexit : DE_exit u pos = (Glsl.length pos, 1.0)).
  { unfold DE_exit, ITERATIONS. rewrite DE_loop_S, Hlen.
    destruct (Rlt_dec 4.0 (Glsl.length pos)) as [_ | H]; [reflexivity | lra]. }
  rewrite DE_value. unfold DE_radius, DE_dr. rewrite Hexit. simpl.
  destruct (Rlt_dec 0 (Glsl.length pos)) as [_ | H]; [| lra].
  f_equal. lra.
Qed.

(** ** The constant zero at the origin *)

Definition zero4 : vec4 := mkvec4 0 0 0 0.

(** Uniforms with the constant [(0, 0, 0, 0)] at [time = 0]. *)
Definition zero_constant_frame : uniforms :=
  mkuniforms (mkvec2 800 600) 0 zero4 (mkvec3 1 1 1).

Lemma DE_loop_zero (n : nat) :
  forall dr r : R, r = 0 -> fst (DE_loop n zero4 zero4 dr r) = 0.
Proof.
  induction n as [| n IH]; intros dr r Hr.
  - exact Hr.
  - rewrite DE_loop_S.
    assert (Hlen : Glsl.length4 zero4 = 0).
    { unfold Glsl.length4, zero4. simpl.
      replace (0 * 0 + 0 * 0 + 0 * 0 + 0 * 0) with 0 by ring.
      apply sqrt_0. }
    rewrite Hlen.
    destruct (Rlt_dec 4.0 0) as [H | _]; [lra |].
    replace (Glsl.add4 (qmul zero4 zero4) zero4) with zero4
      by (apply vec4_eq; simpl; ring).
    apply IH. reflexivity.
Qed.

Lemma DE_radius_zero_constant :
  DE_radius zero_constant_frame origin = 0.
Proof.
  unfold DE_radius, DE_exit.
  replace (rotated_c zero_constant_frame) with zero4
    by (apply vec4_eq; simpl; ring).
  replace (Glsl.lift4 origin 0.0) with zero4
    by (apply vec4_eq; simpl; lra).
  apply DE_loop_zero. lra.
Qed.

(** C5, as stated, fails: at the origin with the constant [(0,0,0,0)] and
    [time = 0] every iterate is zero, the radius is 0 and [log 0] is
    undefined, so [DE] has no value there. *)
Lemma DE_origin_zero_constant_undefined :
  DE zero_constant_frame origin = None.
Proof.
  rewrite DE_value, DE_radius_zero_constant.
  destruct (Rlt_dec 0 0) as [H | _]; [lra | reflexivity].
Qed.

(** C5, amended: [DE] has a value exactly when the radius [r] with which
    its loop is left is positive; the value is then
    [0.5 * ln r * r / dr] with [dr >= 1] (the division never fails), and
    in particular every point farther than 4 from the origin has the
    value [0.5 * ln |pos| * |pos|]. *)
Theorem DE_defined_iff_radius_positive (u : uniforms) (pos : vec3) :
  ((exists v : R, DE u pos = Some v) <-> 0 < DE_radius u pos) /\
  1 <= DE_dr u pos /\
  (forall v : R,
     DE u pos = Some v ->
     v = 0.5 * ln (DE_radius u pos) * DE_radius u pos / DE_dr u pos) /\
  (4 < Glsl.length pos ->
   DE u pos = Some (0.5 * ln (Glsl.length pos) * Glsl.length pos)).
Proof.
  split; [| split; [| split]].
  - rewrite DE_value.
    destruct (Rlt_dec 0 (DE_radius u pos)) as [Hpos | Hnpos]; split.
    + intros _. exact Hpos.
    + intros _. eexists. reflexivity.
    + intros (v & Hv). discriminate Hv.
    + intros H. contradiction.
  - apply DE_dr_ge_1.
  - intros v. rewrite DE_value.
    destruct (Rlt_dec 0 (DE_radius u pos)) as [_ | _]; intros Hv.
    + inversion Hv. reflexivity.
    + discriminate Hv.
  - apply DE_far.
Qed.

(** * Evaluating the estimator at concrete points *)

(** ** Fixed-point interval arithmetic

    Intervals with integer end points in units of [1 / scale]; products
    are rounded outwards. *)
Module Ival.

Definition scale : Z := 10000000000000000000000000000000000000000.

Record t : Type := mk { lo : Z; hi : Z }.

Definition contains (i : t) (x : R) : Prop :=
  IZR (lo i) <= x * IZR scale <= IZR (hi i).

Definition point (k : Z) : t := mk k k.

Definition add (i j : t) : t := mk (lo i + lo j) (hi i + hi j).

Definition sub (i j : t) : t := mk (lo i - hi j) (hi i - lo j).

Definition double (i : t) : t := mk (2 * lo i) (2 * hi i).

Definition round_down (a : Z) : Z := a / scale.

Definition round_up (a : Z) : Z := - ((- a) / scale).

Definition mul (i j : t) : t :=
  let p1 := (lo i * lo j)%Z in
  let p2 := (lo i * hi j)%Z in
  let p3 := (hi i * lo j)%Z in
  let p4 := (hi i * hi j)%Z in
  mk (round_down (Z.min (Z.min p1 p2) (Z.min p3 p4)))
     (round_up (Z.max (Z.max p1 p2) (Z.max p3 p4))).

(** Squaring a nonnegative lower bound, rounded down. *)
Definition sq_down (q : Z) : Z := round_down (q * q).

(** A lower bound of the [2 ^ m]-th power. *)
Definition pow2_down (m : nat) (q : Z) : Z := Nat.iter m sq_down q.

End Ival.

(** ** Boxes of quaternions and the orbit on boxes *)

Record ibox : Type := mkibox {
  ix : Ival.t; iy : Ival.t; iz : Ival.t; iw : Ival.t
}.

Definition ibox_contains (b : ibox) (z : vec4) : Prop :=
  Ival.contains (ix b) (x4 z) /\ Ival.contains (iy b) (y4 z) /\
  Ival.contains (iz b) (z4 z) /\ Ival.contains (iw b) (w4 z).

(** [z * z + c] on boxes, with the square of [z] written
    [(x^2 - y^2 - z^2 - w^2, 2xy, 2xz, 2xw)]. *)
Definition istep (c b : ibox) : ibox :=
  let xx := Ival.mul (ix b) (ix b) in
  let yy := Ival.mul (iy b) (iy b) in
  let zz := Ival.mul (iz b) (iz b) in
  let ww := Ival.mul (iw b) (iw b) in
  mkibox
    (Ival.add (Ival.sub (Ival.sub (Ival.sub xx yy) zz) ww) (ix c))
    (Ival.add (Ival.double (Ival.mul (ix b) (iy b))) (iy c))
    (Ival.add (Ival.double (Ival.mul (ix b) (iz b))) (iz c))
    (Ival.add (Ival.double (Ival.mul (ix b) (iw b))) (iw c)).

(** The squared length. *)
Definition inorm2 (b : ibox) : Ival.t :=
  Ival.add
    (Ival.add
       (Ival.add (Ival.mul (ix b) (ix b)) (Ival.mul (iy b) (iy b)))
       (Ival.mul (iz b) (iz b)))
    (Ival.mul (iw b) (iw b)).

(** The loop of [DE] on boxes: the result encloses the square of the
    radius with which the loop is left; [None] when the box does not
    decide the test [r > 4.0]. *)
Fixpoint orbit_check (n : nat) (c b : ibox) (last : Ival.t) : option Ival.t :=
  match n with
  | O => Some last
  | S n' =>
      let q := inorm2 b in
      if (16 * Ival.scale <? Ival.lo q)%Z then Some q
      else if (Ival.hi q <=? 16 * Ival.scale)%Z
           then orbit_check n' c (istep c b) q
           else None
  end.

(** The enclosure proves a radius in the open interval from 0 to 1. *)
Definition inside_unit (q : Ival.t) : bool :=
  (0 <? Ival.lo q)%Z && (Ival.hi q <? Ival.scale)%Z.

(** The enclosure proves a positive radius. *)
Definition positive (q : Ival.t) : bool := (0 <? Ival.lo q)%Z.

(** ** Soundness of the interval operations *)

Lemma scale_pos : 0 < IZR Ival.scale.
Proof. apply IZR_lt. reflexivity. Qed.

Lemma contains_ext (i : Ival.t) (x y : R) :
  Ival.contains i x -> x = y -> Ival.contains i y.
Proof. intros H <-. exact H. Qed.

Lemma point_sound (k n d : Z) (x : R) :
  (0 < d)%Z -> (k * d = n * Ival.scale)%Z -> x * IZR d = IZR n ->
  Ival.contains (Ival.point k) x.
Proof.
  intros Hd Hk Hx.
  apply IZR_lt in Hd. apply (f_equal IZR) in Hk.
  rewrite !mult_IZR in Hk.
  assert (E : x * IZR Ival.scale = IZR k).
  { apply Rmult_eq_reg_r with (IZR d); [| lra].
    rewrite Hk, <- Hx. ring. }
  unfold Ival.contains, Ival.point. simpl. rewrite E. lra.
Qed.

Lemma between_sound (i : Ival.t) (nl nh d : Z) (x : R) :
  (0 < d)%Z ->
  (Ival.lo i * d <= nl * Ival.scale)%Z ->
  (nh * Ival.scale <= Ival.hi i * d)%Z ->
  IZR nl <= x * IZR d <= IZR nh ->
  Ival.contains i x.
Proof.
  intros Hd Hl Hh [Hx1 Hx2].
  apply IZR_lt in Hd. apply IZR_le in Hl, Hh.
  rewrite !mult_IZR in Hl, Hh.
  pose proof scale_pos as HS.
  unfold Ival.contains. split.
  - apply Rmult_le_reg_r with (IZR d); [lra |]. nra.
  - apply Rmult_le_reg_r with (IZR d); [lra |]. nra.
Qed.

Lemma add_sound (i j : Ival.t) (x y : R) :
  Ival.contains i x -> Ival.contains j y -> Ival.contains (Ival.add i j) (x + y).
Proof.
  unfold Ival.contains, Ival.add. cbn [Ival.lo Ival.hi]. rewrite !plus_IZR. lra.
Qed.

Lemma sub_sound (i j : Ival.t) (x y : R) :
  Ival.contains i x -> Ival.contains j y -> Ival.contains (Ival.sub i j) (x - y).
Proof.
  unfold Ival.contains, Ival.sub. cbn [Ival.lo Ival.hi]. rewrite !minus_IZR. lra.
Qed.

Lemma double_sound (i : Ival.t) (x : R) :
  Ival.contains i x -> Ival.contains (Ival.double i) (2 * x).
Proof.
  unfold Ival.contains, Ival.double. cbn [Ival.lo Ival.hi]. rewrite !mult_IZR. lra.
Qed.

Lemma round_down_le (a : Z) : IZR (Ival.round_down a) * IZR Ival.scale <= IZR a.
Proof.
  unfold Ival.round_down. rewrite <- mult_IZR. apply IZR_le.
  rewrite Z.mul_comm. apply Z.mul_div_le. reflexivity.
Qed.

Lemma round_up_ge (a : Z) : IZR a <= IZR (Ival.round_up a) * IZR Ival.scale.
Proof.
  unfold Ival.round_up. rewrite <- mult_IZR. apply IZR_le.
  pose proof (Z.mul_div_le (- a) Ival.scale eq_refl). lia.
Qed.

Lemma product_lower (a b c d x y m : R) :
  a <= x <= b -> c <= y <= d ->
  m <= a * c -> m <= a * d -> m <= b * c -> m <= b * d ->
  m <= x * y.
Proof.
  intros Hx Hy H1 H2 H3 H4.
  destruct (Rle_dec 0 y) as [Hy0 | Hy0].
  - destruct (Rle_dec 0 a) as [Ha | Ha]; nra.
  - destruct (Rle_dec 0 b) as [Hb | Hb]; nra.
Qed.

Lemma product_upper (a b c d x y m : R) :
  a <= x <= b -> c <= y <= d ->
  a * c <= m -> a * d <= m -> b * c <= m -> b * d <= m ->
  x * y <= m.
Proof.
  intros Hx Hy H1 H2 H3 H4.
  destruct (Rle_dec 0 y) as [Hy0 | Hy0].
  - destruct (Rle_dec 0 b) as [Hb | Hb]; nra.
  - destruct (Rle_dec 0 a) as [Ha | Ha]; nra.
Qed.

Lemma mul_sound (i j : Ival.t) (x y : R) :
  Ival.contains i x -> Ival.contains j y -> Ival.contains (Ival.mul i j) (x * y).
Proof.
  intros Hx Hy. unfold Ival.contains in *. unfold Ival.mul. cbn [Ival.lo Ival.hi].
  pose proof scale_pos as HS.
  set (p1 := (Ival.lo i * Ival.lo j)%Z).
  set (p2 := (Ival.lo i * Ival.hi j)%Z).
  set (p3 := (Ival.hi i * Ival.lo j)%Z).
  set (p4 := (Ival.hi i * Ival.hi j)%Z).
  set (mn := Z.min (Z.min p1 p2) (Z.min p3 p4)).
  set (mx := Z.max (Z.max p1 p2) (Z.max p3 p4)).
  assert (Hmn : IZR mn <= (x * IZR Ival.scale) * (y * IZR Ival.scale)).
  { apply product_lower with (1 := Hx) (2 := Hy);
      rewrite <- mult_IZR; apply IZR_le; unfold mn; fold p1 p2 p3 p4; lia. }
  assert (Hmx : (x * IZR Ival.scale) * (y * IZR Ival.scale) <= IZR mx).
  { apply product_upper with (1 := Hx) (2 := Hy);
      rewrite <- mult_IZR; apply IZR_le; unfold mx; fold p1 p2 p3 p4; lia. }
  pose proof (round_down_le mn) as Hd.
  pose proof (round_up_ge mx) as Hu.
  split.
  - apply Rmult_le_reg_r with (IZR Ival.scale); [exact HS |]. nra.
  - apply Rmult_le_reg_r with (IZR Ival.scale); [exact HS |]. nra.
Qed.

(** ** Soundness of the orbit on boxes *)

Lemma qmul_square (z : vec4) :
  qmul z z =
  mkvec4 (x4 z * x4 z - y4 z * y4 z - z4 z * z4 z - w4 z * w4 z)
         (2 * (x4 z * y4 z)) (2 * (x4 z * z4 z)) (2 * (x4 z * w4 z)).
Proof. apply vec4_eq; simpl; ring. Qed.

Lemma istep_sound (cb b : ibox) (c z : vec4) :
  ibox_contains cb c -> ibox_contains b z ->
  ibox_contains (istep cb b) (Glsl.add4 (qmul z z) c).
Proof.
  intros (Hcx & Hcy & Hcz & Hcw) (Hx & Hy & Hz & Hw).
  rewrite qmul_square. unfold ibox_contains, istep, Glsl.add4.
  cbn [ix iy iz iw x4 y4 z4 w4].
  split; [| split; [| split]];
    repeat first [ apply add_sound | apply sub_sound | apply double_sound
                 | apply mul_sound ]; assumption.
Qed.

Lemma inorm2_sound (b : ibox) (z : vec4) :
  ibox_contains b z ->
  Ival.contains (inorm2 b)
    (x4 z * x4 z + y4 z * y4 z + z4 z * z4 z + w4 z * w4 z).
Proof.
  intros (Hx & Hy & Hz & Hw). unfold inorm2.
  repeat first [ apply add_sound | apply mul_sound ]; assumption.
Qed.

Lemma norm2_nonneg (z : vec4) :
  0 <= x4 z * x4 z + y4 z * y4 z + z4 z * z4 z + w4 z * w4 z.
Proof. nra. Qed.

Lemma length4_square (z : vec4) :
  Glsl.length4 z * Glsl.length4 z
  = x4 z * x4 z + y4 z * y4 z + z4 z * z4 z + w4 z * w4 z.
Proof. apply sqrt_sqrt. apply norm2_nonneg. Qed.

Lemma sixteen_scale : IZR (16 * Ival.scale) = 16 * IZR Ival.scale.
Proof. rewrite mult_IZR. reflexivity. Qed.

Lemma orbit_check_S (n : nat) (c b : ibox) (last : Ival.t) :
  orbit_check (S n) c b last =
  if (16 * Ival.scale <? Ival.lo (inorm2 b))%Z then Some (inorm2 b)
  else if (Ival.hi (inorm2 b) <=? 16 * Ival.scale)%Z
       then orbit_check n c (istep c b) (inorm2 b)
       else None.
Proof. reflexivity. Qed.

Lemma orbit_check_sound (n : nat) :
  forall (cb b : ibox) (last q : Ival.t) (c z : vec4) (dr r : R),
    ibox_contains cb c -> ibox_contains b z ->
    Ival.contains last (r * r) -> 0 <= r ->
    orbit_check n cb b last = Some q ->
    Ival.contains q (fst (DE_loop n c z dr r) * fst (DE_loop n c z dr r)).
Proof.
  induction n as [| n IH]; intros cb b last q c z dr r Hc Hz Hlast Hr Hchk.
  - cbn [orbit_check DE_loop fst] in *. inversion Hchk; subst. exact Hlast.
  - rewrite orbit_check_S in Hchk. rewrite DE_loop_S.
    pose proof (inorm2_sound b z Hz) as Hq.
    rewrite <- length4_square in Hq.
    pose proof (length4_nonneg z) as Hlen.
    pose proof scale_pos as HS.
    set (ln4 := Glsl.length4 z) in *.
    destruct (16 * Ival.scale <? Ival.lo (inorm2 b))%Z eqn:Hesc.
    + inversion Hchk; subst q.
      destruct (Rlt_dec 4.0 ln4) as [_ | Hno]; [exact Hq |].
      exfalso. apply Z.ltb_lt in Hesc. apply IZR_lt in Hesc.
      rewrite sixteen_scale in Hesc. destruct Hq as [Hq _].
      assert (Hsq : ln4 * ln4 <= 16) by nra.
      assert (Hmul : ln4 * ln4 * IZR Ival.scale <= 16 * IZR Ival.scale)
        by (apply Rmult_le_compat_r; lra).
      lra.
    + destruct (Ival.hi (inorm2 b) <=? 16 * Ival.scale)%Z eqn:Hin;
        [| discriminate Hchk].
      destruct (Rlt_dec 4.0 ln4) as [Hyes | _].
      * exfalso. apply Z.leb_le in Hin. apply IZR_le in Hin.
        rewrite sixteen_scale in Hin. destruct Hq as [_ Hq].
        assert (Hsq : 16 < ln4 * ln4) by nra.
        assert (Hmul : 16 * IZR Ival.scale < ln4 * ln4 * IZR Ival.scale)
          by (apply Rmult_lt_compat_r; lra).
        lra.
      * apply IH with (cb := cb) (b := istep cb b) (last := inorm2 b);
          auto using istep_sound.
Qed.

Lemma inside_unit_sound (q : Ival.t) (r : R) :
  inside_unit q = true -> Ival.contains q (r * r) -> 0 <= r -> 0 < r < 1.
Proof.
  unfold inside_unit. intros Hq [Hlo Hhi] Hr.
  apply andb_prop in Hq. destruct Hq as [H0 H1].
  apply Z.ltb_lt in H0, H1. apply IZR_lt in H0, H1.
  pose proof scale_pos as HS.
  assert (Hsq0 : 0 < r * r).
  { apply Rmult_lt_reg_r with (IZR Ival.scale); lra. }
  assert (Hsq1 : r * r < 1).
  { apply Rmult_lt_reg_r with (IZR Ival.scale); lra. }
  split; nra.
Qed.

Lemma positive_sound (q : Ival.t) (r : R) :
  positive q = true -> Ival.contains q (r * r) -> 0 <= r -> 0 < r.
Proof.
  unfold positive. intros H0 [Hlo Hhi] Hr.
  apply Z.ltb_lt in H0. apply IZR_lt in H0.
  pose proof scale_pos as HS.
  assert (Hsq0 : 0 < r * r).
  { apply Rmult_lt_reg_r with (IZR Ival.scale); lra. }
  nra.
Qed.

(** ** The estimator at [time = 0] *)

Lemma rotated_c_time_0 (u : uniforms) :
  time u = 0 -> rotated_c u = quaternionC u.
Proof.
  intros Ht. unfold rotated_c. rewrite Ht.
  replace (0 * 0.2) with 0 by lra. replace (0 * 0.7) with 0 by lra.
  rewrite cos_0, sin_0. apply vec4_eq; simpl; ring.
Qed.

(** The box of the host's constant [(-0.2, 0.4, -0.4, -0.4)]. *)
Definition host_box : ibox :=
  let tenth := (Ival.scale / 10)%Z in
  mkibox (Ival.point (-2 * tenth)) (Ival.point (4 * tenth))
         (Ival.point (-4 * tenth)) (Ival.point (-4 * tenth)).

Lemma host_box_sound : ibox_contains host_box quaternionC_host.
Proof.
  unfold ibox_contains, host_box, quaternionC_host.
  cbn [ix iy iz iw x4 y4 z4 w4].
  split; [| split; [| split]].
  - apply point_sound with (n := (-2)%Z) (d := 10%Z);
      [reflexivity | vm_compute; reflexivity | lra].
  - apply point_sound with (n := 4%Z) (d := 10%Z);
      [reflexivity | vm_compute; reflexivity | lra].
  - apply point_sound with (n := (-4)%Z) (d := 10%Z);
      [reflexivity | vm_compute; reflexivity | lra].
  - apply point_sound with (n := (-4)%Z) (d := 10%Z);
      [reflexivity | vm_compute; reflexivity | lra].
Qed.

Lemma DE_checked (u : uniforms) (pos : vec3) (b : ibox) (q : Ival.t) :
  time u = 0 -> quaternionC u = quaternionC_host ->
  ibox_contains b (Glsl.lift4 pos 0.0) ->
  orbit_check 20 host_box b (Ival.point 0) = Some q ->
  (positive q = true -> exists v : R, DE u pos = Some v) /\
  (inside_unit q = true -> exists v : R, DE u pos = Some v /\ v < 0).
Proof.
  intros Ht Hc Hb Hchk.
  assert (Hq : Ival.contains q (DE_radius u pos * DE_radius u pos)).
  { unfold DE_radius, DE_exit, ITERATIONS.
    rewrite (rotated_c_time_0 u Ht), Hc.
    apply orbit_check_sound with (cb := host_box) (b := b)
                                 (last := Ival.point 0).
    - exact host_box_sound.
    - exact Hb.
    - apply point_sound with (n := 0%Z) (d := 1%Z);
        [reflexivity | vm_compute; reflexivity | lra].
    - lra.
    - exact Hchk. }
  pose proof (DE_radius_nonneg u pos) as Hr.
  pose proof (DE_dr_ge_1 u pos) as Hdr.
  rewrite DE_value. split; intros Hgood.
  - pose proof (positive_sound q _ Hgood Hq Hr) as Hpos.
    destruct (Rlt_dec 0 (DE_radius u pos)) as [_ | H]; [| contradiction].
    eexists. reflexivity.
  - pose proof (inside_unit_sound q _ Hgood Hq Hr) as [Hpos Hlt].
    destruct (Rlt_dec 0 (DE_radius u pos)) as [_ | H]; [| contradiction].
    eexists. split; [reflexivity |].
    assert (Hln : ln (DE_radius u pos) < 0).
    { rewrite <- ln_1. apply ln_increasing; assumption. }
    assert (Hnum : 0.5 * ln (DE_radius u pos) * DE_radius u pos < 0) by nra.
    unfold Rdiv.
    assert (Hinv : 0 < / DE_dr u pos) by (apply Rinv_0_lt_compat; lra).
    nra.
Qed.

(** ** Bounds on the logarithm

    [exp y] is bounded from below by [(1 + y / 2^m) ^ (2^m)], computed by
    [m] squarings rounded down. *)

(** A lower bound of [exp (n / d)] in units of [1 / scale]. *)
Definition exp_down (m : nat) (n d : Z) : Z :=
  let k := (d * 2 ^ Z.of_nat m)%Z in
  Ival.pow2_down m ((k + n) * Ival.scale / k).

(** [a <= exp (n / d)], hence [ln a <= n / d]. *)
Definition ln_le_check (m : nat) (a n d : Z) : bool :=
  (0 <? d)%Z && (0 <=? d * 2 ^ Z.of_nat m + n)%Z
  && (a * Ival.scale <=? exp_down m n d)%Z.

(** [1 <= a * exp (- n / d)], hence [n / d <= ln a]. *)
Definition ln_ge_check (m : nat) (a n d : Z) : bool :=
  (0 <? d)%Z && (0 <=? d * 2 ^ Z.of_nat m + - n)%Z
  && (Ival.scale <=? a * exp_down m (- n) d)%Z.

Lemma exp_INR_mult (n : nat) (y : R) : exp (INR n * y) = exp y ^ n.
Proof.
  induction n as [| n IH].
  - simpl. rewrite Rmult_0_l. apply exp_0.
  - rewrite S_INR, Rmult_plus_distr_r, Rmult_1_l, exp_plus, IH.
    simpl. ring.
Qed.

Lemma sq_down_sound (q : Z) (x : R) :
  (0 <= q)%Z -> IZR q <= x * IZR Ival.scale ->
  (0 <= Ival.sq_down q)%Z /\ IZR (Ival.sq_down q) <= x * x * IZR Ival.scale.
Proof.
  intros Hq Hx. pose proof scale_pos as HS. split.
  - unfold Ival.sq_down, Ival.round_down.
    apply Z.div_pos; [nia | reflexivity].
  - pose proof (round_down_le (q * q)) as Hd. fold (Ival.sq_down q) in Hd.
    rewrite mult_IZR in Hd. apply IZR_le in Hq.
    apply Rmult_le_reg_r with (IZR Ival.scale); [exact HS |]. nra.
Qed.

Lemma pow2_down_sound (m : nat) :
  forall (q : Z) (x : R),
    (0 <= q)%Z -> IZR q <= x * IZR Ival.scale ->
    IZR (Ival.pow2_down m q) <= x ^ (2 ^ m) * IZR Ival.scale.
Proof.
  induction m as [| m IH]; intros q x Hq Hx.
  - unfold Ival.pow2_down. simpl. lra.
  - unfold Ival.pow2_down. rewrite Nat.iter_succ_r.
    fold (Ival.pow2_down m (Ival.sq_down q)).
    destruct (sq_down_sound q x Hq Hx) as [Hq' Hx'].
    rewrite Nat.pow_succ_r', pow_sqr. apply IH; assumption.
Qed.

Lemma exp_lower_bound (m : nat) (q : Z) (y : R) :
  (0 <= q)%Z -> IZR q <= (1 + y / 2 ^ m) * IZR Ival.scale ->
  IZR (Ival.pow2_down m q) <= exp y * IZR Ival.scale.
Proof.
  intros Hq Hy. pose proof scale_pos as HS.
  pose proof (pow2_down_sound m q _ Hq Hy) as Hp.
  assert (Hbase : 0 <= 1 + y / 2 ^ m).
  { apply IZR_le in Hq.
    apply Rmult_le_reg_r with (IZR Ival.scale); [exact HS |]. lra. }
  assert (Hpow : (1 + y / 2 ^ m) ^ (2 ^ m) <= exp y).
  { assert (E : exp y = exp (y / 2 ^ m) ^ (2 ^ m)).
    { rewrite <- exp_INR_mult, pow_INR. f_equal.
      replace (INR 2) with 2 by (simpl; lra).
      assert (Hp2 : 2 ^ m <> 0) by (apply pow_nonzero; lra).
      set (p := 2 ^ m) in *. field. exact Hp2. }
    rewrite E. apply pow_incr. split; [exact Hbase |].
    apply exp_ineq1_le. }
  apply Rle_trans with (1 := Hp).
  apply Rmult_le_compat_r; lra.
Qed.

Lemma exp_down_sound (m : nat) (n d : Z) :
  (0 < d)%Z -> (0 <= d * 2 ^ Z.of_nat m + n)%Z ->
  IZR (exp_down m n d) <= exp (IZR n / IZR d) * IZR Ival.scale.
Proof.
  intros Hd Hn. unfold exp_down. cbv zeta.
  set (k := (d * 2 ^ Z.of_nat m)%Z) in *.
  assert (Hk : (0 < k)%Z).
  { unfold k. apply Z.mul_pos_pos; [exact Hd |].
    apply Z.pow_pos_nonneg; lia. }
  assert (HkR : IZR k = IZR d * 2 ^ m).
  { unfold k. rewrite mult_IZR, <- pow_IZR. reflexivity. }
  pose proof scale_pos as HS.
  assert (HdR : 0 < IZR d) by (apply IZR_lt; exact Hd).
  assert (HkR0 : 0 < IZR k) by (apply IZR_lt; exact Hk).
  assert (Hpow : 0 < 2 ^ m) by (apply pow_lt; lra).
  apply exp_lower_bound.
  - apply Z.div_pos; [| exact Hk].
    apply Z.mul_nonneg_nonneg; [exact Hn | discriminate].
  - pose proof (Z.mul_div_le ((k + n) * Ival.scale) k Hk) as Hfl.
    apply IZR_le in Hfl. rewrite !mult_IZR, plus_IZR in Hfl.
    apply Rmult_le_reg_l with (IZR k); [exact HkR0 |].
    apply Rle_trans with (1 := Hfl).
    apply Req_le. rewrite HkR. field. split; lra.
Qed.

Lemma ln_le_check_sound (m : nat) (a n d : Z) :
  ln_le_check m a n d = true -> (0 < a)%Z ->
  ln (IZR a) <= IZR n / IZR d.
Proof.
  unfold ln_le_check. intros Hchk Ha.
  apply andb_prop in Hchk. destruct Hchk as [Hchk Hle].
  apply andb_prop in Hchk. destruct Hchk as [Hd Hn].
  apply Z.ltb_lt in Hd. apply Z.leb_le in Hn, Hle.
  pose proof (exp_down_sound m n d Hd Hn) as Hexp.
  apply IZR_le in Hle. rewrite mult_IZR in Hle.
  pose proof scale_pos as HS. apply IZR_lt in Ha.
  assert (Hae : IZR a <= exp (IZR n / IZR d)).
  { apply Rmult_le_reg_r with (IZR Ival.scale); [exact HS |]. lra. }
  rewrite <- (ln_exp (IZR n / IZR d)).
  destruct Hae as [Hlt | Heq].
  - left. apply ln_increasing; assumption.
  - right. rewrite Heq. reflexivity.
Qed.

Lemma ln_ge_check_sound (m : nat) (a n d : Z) :
  ln_ge_check m a n d = true -> (0 < a)%Z ->
  IZR n / IZR d <= ln (IZR a).
Proof.
  unfold ln_ge_check. intros Hchk Ha.
  apply andb_prop in Hchk. destruct Hchk as [Hchk Hle].
  apply andb_prop in Hchk. destruct Hchk as [Hd Hn].
  apply Z.ltb_lt in Hd. apply Z.leb_le in Hn, Hle.
  pose proof (exp_down_sound m (- n) d Hd Hn) as Hexp.
  apply IZR_le in Hle. rewrite mult_IZR in Hle.
  pose proof scale_pos as HS. apply IZR_lt in Ha.
  rewrite opp_IZR in Hexp.
  replace (- IZR n / IZR d) with (- (IZR n / IZR d)) in Hexp
    by (unfold Rdiv; ring).
  rewrite exp_Ropp in Hexp.
  set (L := IZR n / IZR d) in *.
  pose proof (exp_pos L) as HeL.
  assert (Hone : 1 <= IZR a * / exp L).
  { apply Rmult_le_reg_r with (IZR Ival.scale); [exact HS |]. nra. }
  assert (Hae : exp L <= IZR a).
  { apply Rmult_le_reg_r with (/ exp L).
    - apply Rinv_0_lt_compat. exact HeL.
    - rewrite Rinv_r by lra. exact Hone. }
  rewrite <- (ln_exp L).
  destruct Hae as [Hlt | Heq].
  - left. apply ln_increasing; assumption.
  - right. rewrite Heq. reflexivity.
Qed.

(** [ln 85] to nine decimals. *)
Lemma ln_85_bounds : 4.442651256 <= ln 85 <= 4.442651257.
Proof.
  split.
  - replace 4.442651256 with (IZR 4442651256 / IZR 1000000000) by lra.
    apply (ln_ge_check_sound 60); [vm_compute; reflexivity | reflexivity].
  - replace 4.442651257 with (IZR 4442651257 / IZR 1000000000) by lra.
    apply (ln_le_check_sound 60); [vm_compute; reflexivity | reflexivity].
Qed.

(** ** Checked evaluation at [time = 0] with the host's constant *)

(** The loop on the box [b] ends with a radius proved positive. *)
Definition checked_positive (b : ibox) : bool :=
  match orbit_check 20 host_box b (Ival.point 0) with
  | Some q => positive q
  | None => false
  end.

(** The loop on the box [b] ends with a radius proved to be in the open
    interval from 0 to 1. *)
Definition checked_inside (b : ibox) : bool :=
  match orbit_check 20 host_box b (Ival.point 0) with
  | Some q => inside_unit q
  | None => false
  end.

Lemma DE_defined_by_check (u : uniforms) (pos : vec3) (b : ibox) :
  time u = 0 -> quaternionC u = quaternionC_host ->
  ibox_contains b (Glsl.lift4 pos 0.0) ->
  checked_positive b = true ->
  exists v : R, DE u pos = Some v.
Proof.
  intros Ht Hc Hb Hchk. unfold checked_positive in Hchk.
  destruct (orbit_check 20 host_box b (Ival.point 0)) as [q |] eqn:Hq;
    [| discriminate Hchk].
  destruct (DE_checked u pos b q Ht Hc Hb Hq) as [Hpos _]. auto.
Qed.

Lemma DE_negative_by_check (u : uniforms) (pos : vec3) (b : ibox) :
  time u = 0 -> quaternionC u = quaternionC_host ->
  ibox_contains b (Glsl.lift4 pos 0.0) ->
  checked_inside b = true ->
  exists v : R, DE u pos = Some v /\ v < 0.
Proof.
  intros Ht Hc Hb Hchk. unfold checked_inside in Hchk.
  destruct (orbit_check 20 host_box b (Ival.point 0)) as [q |] eqn:Hq;
    [| discriminate Hchk].
  destruct (DE_checked u pos b q Ht Hc Hb Hq) as [_ Hneg]. auto.
Qed.

(** * Normal estimator *)

(** [DE] is even: the first update squares [z]. *)
Lemma DE_even (u : uniforms) (p : vec3) : DE u (Glsl.neg3 p) = DE u p.
Proof.
  assert (Hexit : DE_exit u (Glsl.neg3 p) = DE_exit u p).
  { unfold DE_exit, ITERATIONS.
    rewrite (DE_loop_S 19 _ (Glsl.lift4 (Glsl.neg3 p) 0.0)).
    rewrite (DE_loop_S 19 _ (Glsl.lift4 p 0.0)).
    assert (Hlen : Glsl.length4 (Glsl.lift4 (Glsl.neg3 p) 0.0)
                   = Glsl.length4 (Glsl.lift4 p 0.0)).
    { unfold Glsl.length4, Glsl.lift4, Glsl.neg3. f_equal.
      cbn [x4 y4 z4 w4 x3 y3 z3]. generalize 0.0. intros w. ring. }
    assert (Hsq : Glsl.add4 (qmul (Glsl.lift4 (Glsl.neg3 p) 0.0)
                               (Glsl.lift4 (Glsl.neg3 p) 0.0)) (rotated_c u)
                  = Glsl.add4 (qmul (Glsl.lift4 p 0.0) (Glsl.lift4 p 0.0))
                      (rotated_c u)).
    { apply vec4_eq; unfold Glsl.add4, qmul, Glsl.lift4, Glsl.neg3;
        cbn [x4 y4 z4 w4 x3 y3 z3]; replace 0.0 with 0 by lra; ring. }
    rewrite Hlen, Hsq. reflexivity. }
  rewrite !DE_value. unfold DE_radius, DE_dr. rewrite Hexit. reflexivity.
Qed.

(** The three points at distance [MIN_DIST] from the origin on the
    positive axes, as boxes. *)
Definition eps_fixed : Z := (Ival.scale / 10000)%Z.

Definition box_eps_x : ibox :=
  mkibox (Ival.point eps_fixed) (Ival.point 0) (Ival.point 0) (Ival.point 0).
Definition box_eps_y : ibox :=
  mkibox (Ival.point 0) (Ival.point eps_fixed) (Ival.point 0) (Ival.point 0).
Definition box_eps_z : ibox :=
  mkibox (Ival.point 0) (Ival.point 0) (Ival.point eps_fixed) (Ival.point 0).

Ltac point_box :=
  unfold ibox_contains, Glsl.lift4, Glsl.add3, origin,
    box_eps_x, box_eps_y, box_eps_z;
  cbn [ix iy iz iw x4 y4 z4 w4 x3 y3 z3];
  split; [| split; [| split]];
  first [ apply point_sound with (n := 0%Z) (d := 1%Z);
          [reflexivity | vm_compute; reflexivity | unfold MIN_DIST; lra]
        | apply point_sound with (n := 1%Z) (d := 10000%Z);
          [reflexivity | vm_compute; reflexivity | unfold MIN_DIST; lra] ].

Lemma box_eps_x_sound :
  ibox_contains box_eps_x
    (Glsl.lift4 (Glsl.add3 origin (mkvec3 MIN_DIST 0.0 0.0)) 0.0).
Proof. point_box. Qed.

Lemma box_eps_y_sound :
  ibox_contains box_eps_y
    (Glsl.lift4 (Glsl.add3 origin (mkvec3 0.0 MIN_DIST 0.0)) 0.0).
Proof. point_box. Qed.

Lemma box_eps_z_sound :
  ibox_contains box_eps_z
    (Glsl.lift4 (Glsl.add3 origin (mkvec3 0.0 0.0 MIN_DIST)) 0.0).
Proof. point_box. Qed.

Lemma gradient_at_origin :
  gradient first_frame origin = Some (mkvec3 0 0 0).
Proof.
  unfold gradient. cbv zeta.
  set (ex := mkvec3 (x2 (mkvec2 MIN_DIST 0.0)) (y2 (mkvec2 MIN_DIST 0.0))
               (y2 (mkvec2 MIN_DIST 0.0))).
  set (ey := mkvec3 (y2 (mkvec2 MIN_DIST 0.0)) (x2 (mkvec2 MIN_DIST 0.0))
               (y2 (mkvec2 MIN_DIST 0.0))).
  set (ez := mkvec3 (y2 (mkvec2 MIN_DIST 0.0)) (y2 (mkvec2 MIN_DIST 0.0))
               (x2 (mkvec2 MIN_DIST 0.0))).
  assert (Hx : Glsl.sub3 origin ex = Glsl.neg3 (Glsl.add3 origin ex))
    by (apply vec3_eq; simpl; lra).
  assert (Hy : Glsl.sub3 origin ey = Glsl.neg3 (Glsl.add3 origin ey))
    by (apply vec3_eq; simpl; lra).
  assert (Hz : Glsl.sub3 origin ez = Glsl.neg3 (Glsl.add3 origin ez))
    by (apply vec3_eq; simpl; lra).
  rewrite Hx, Hy, Hz, !DE_even.
  destruct (DE_defined_by_check first_frame (Glsl.add3 origin ex) box_eps_x)
    as [a Ha]; [reflexivity | reflexivity | exact box_eps_x_sound
                | vm_compute; reflexivity |].
  destruct (DE_defined_by_check first_frame (Glsl.add3 origin ey) box_eps_y)
    as [b Hb]; [reflexivity | reflexivity | exact box_eps_y_sound
                | vm_compute; reflexivity |].
  destruct (DE_defined_by_check first_frame (Glsl.add3 origin ez) box_eps_z)
    as [c Hc]; [reflexivity | reflexivity | exact box_eps_z_sound
                | vm_compute; reflexivity |].
  rewrite Ha, Hb, Hc. simpl. f_equal. apply vec3_eq; simpl; lra.
Qed.

Lemma length_zero_vector : Glsl.length (mkvec3 0 0 0) = 0.
Proof.
  unfold Glsl.length. simpl.
  replace (0 * 0 + 0 * 0 + 0 * 0) with 0 by ring. apply sqrt_0.
Qed.

(** C6, as stated, fails: in the first frame the central differences at
    the origin are all zero ([DE] is even), and [getNormal] has no value
    there: it normalizes the zero vector. *)
Lemma getNormal_origin_undefined :
  gradient first_frame origin = Some (mkvec3 0 0 0) /\
  getNormal first_frame origin = None.
Proof.
  split.
  - exact gradient_at_origin.
  - unfold getNormal. rewrite gradient_at_origin. simpl bind.
    apply normalize_zero_length. exact length_zero_vector.
Qed.

Lemma unit3_length (g : vec3) :
  0 < x3 g * x3 g + y3 g * y3 g + z3 g * z3 g ->
  Glsl.length (unit3 g) = 1.
Proof.
  intros Hpos.
  set (s := x3 g * x3 g + y3 g * y3 g + z3 g * z3 g) in *.
  assert (Hl : 0 < Glsl.length g) by (apply sqrt_lt_R0; exact Hpos).
  assert (Hll : Glsl.length g * Glsl.length g = s).
  { apply sqrt_sqrt. lra. }
  unfold Glsl.length at 1. unfold unit3. simpl.
  set (l := Glsl.length g) in *.
  replace (x3 g / l * (x3 g / l) + y3 g / l * (y3 g / l)
           + z3 g / l * (z3 g / l)) with (s / (l * l))
    by (unfold s; field; lra).
  rewrite Hll. unfold Rdiv. rewrite Rinv_r by lra. apply sqrt_1.
Qed.

(** C6, amended: [getNormal] has no guard for a degenerate gradient.
    When the central-difference gradient [g] is the zero vector,
    [getNormal] has no value (it divides by the zero length); when [g] is
    not zero, it returns [g / |g|], a vector of length 1. *)
Theorem getNormal_without_fallback (u : uniforms) (p g : vec3) :
  gradient u p = Some g ->
  (g = mkvec3 0 0 0 -> getNormal u p = None) /\
  (g <> mkvec3 0 0 0 ->
   getNormal u p = Some (unit3 g) /\ Glsl.length (unit3 g) = 1).
Proof.
  intros Hg. unfold getNormal. rewrite Hg. simpl bind. split.
  - intros ->. apply normalize_zero_length. exact length_zero_vector.
  - intros Hnz.
    assert (Hpos : 0 < x3 g * x3 g + y3 g * y3 g + z3 g * z3 g).
    { destruct (Rlt_dec 0 (x3 g * x3 g + y3 g * y3 g + z3 g * z3 g))
        as [H | H]; [exact H |].
      exfalso. apply Hnz. apply vec3_eq; simpl; nra. }
    split.
    + apply normalize_defined. exact Hpos.
    + apply unit3_length. exact Hpos.
Qed.

Lemma getNormal_without_fallback_witness :
  getNormal first_frame origin = None.
Proof.
  apply (getNormal_without_fallback first_frame origin (mkvec3 0 0 0)).
  - exact gradient_at_origin.
  - reflexivity.
Defined.

(** * The range of the march result *)

Lemma sample_travel (u : uniforms) (ro rd : vec3) (k : nat) (t d : R) :
  sample u ro rd k = Some (t, d) ->
  travel u ro rd k = Some t /\ damped u ro rd t = Some d.
Proof.
  unfold sample. intros Hs.
  destruct (travel u ro rd k) as [t' |]; [| discriminate Hs].
  simpl in Hs.
  destruct (damped u ro rd t') as [d' |] eqn:Hd; [| discriminate Hs].
  simpl in Hs. inversion Hs; subst. auto.
Qed.

Lemma goes_on_travel (u : uniforms) (ro rd : vec3) (k : nat) :
  goes_on u ro rd k ->
  exists t d : R,
    travel u ro rd k = Some t /\ travel u ro rd (S k) = Some (t + d) /\
    t <= MAX_DIST /\ MIN_DIST <= d.
Proof.
  intros (t & d & Hs & Hd & Ht).
  destruct (sample_travel u ro rd k t d Hs) as [Htr Hda].
  exists t, d. split; [exact Htr |]. split.
  - simpl. rewrite Htr. simpl. rewrite Hda. reflexivity.
  - lra.
Qed.

(** While the march goes on the travel distance does not decrease. *)
Lemma travel_nonneg (u : uniforms) (ro rd : vec3) (k : nat) :
  forall t : R,
    (forall j, (j < k)%nat -> goes_on u ro rd j) ->
    travel u ro rd k = Some t -> 0 <= t.
Proof.
  induction k as [| k IH]; intros t Hgo Ht.
  - simpl in Ht. inversion Ht. lra.
  - destruct (goes_on_travel u ro rd k (Hgo k (Nat.lt_succ_diag_r k)))
      as (t' & d & Htr & Htr' & _ & Hd).
    rewrite Htr' in Ht. inversion Ht; subst.
    assert (0 <= t') by (apply IH; auto).
    unfold MIN_DIST in Hd. lra.
Qed.

(** ** A ray from far away that lands inside the set *)

Definition far_origin : vec3 := mkvec3 (-85) 0 0.
Definition x_axis : vec3 := mkvec3 1 0 0.

(** The first damped distance of the far ray, its travel distance at the
    second sample. *)
Definition far_step : R := 0.5 * ln 85 * 85 * STEP_SCALE.

(** An enclosure of the second sample point of the far ray. *)
Definition landing_box : ibox :=
  mkibox
    (Ival.mk (-34294729000 * (Ival.scale / 1000000000000))
             (-34294709875 * (Ival.scale / 1000000000000)))
    (Ival.point 0) (Ival.point 0) (Ival.point 0).

Ltac zero_point :=
  apply point_sound with (n := 0%Z) (d := 1%Z);
  [reflexivity | vm_compute; reflexivity | lra].

Lemma far_first_sample :
  sample first_frame far_origin x_axis 0 = Some (0, far_step).
Proof.
  unfold sample. simpl travel. simpl bind. unfold damped.
  assert (Hlen : Glsl.length (Glsl.add3 far_origin (Glsl.scale3 x_axis 0))
                 = 85).
  { unfold Glsl.length, Glsl.add3, Glsl.scale3, far_origin, x_axis.
    cbn [x3 y3 z3].
    replace ((-85 + 1 * 0) * (-85 + 1 * 0) + (0 + 0 * 0) * (0 + 0 * 0)
             + (0 + 0 * 0) * (0 + 0 * 0)) with (85 * 85) by ring.
    apply sqrt_square. lra. }
  rewrite DE_far by (rewrite Hlen; lra).
  rewrite Hlen. reflexivity.
Qed.

Lemma far_step_bounds : 84.9657 < far_step < 84.9658.
Proof.
  pose proof ln_85_bounds as [Hlo Hhi].
  unfold far_step, STEP_SCALE. lra.
Qed.

Lemma far_goes_on_first : goes_on first_frame far_origin x_axis 0.
Proof.
  exists 0, far_step. split; [exact far_first_sample |].
  pose proof far_step_bounds. unfold MIN_DIST, MAX_DIST. lra.
Qed.

Lemma far_travel_1 :
  travel first_frame far_origin x_axis 1 = Some (0 + far_step).
Proof.
  destruct (sample_travel _ _ _ _ _ _ far_first_sample) as [_ Hd].
  simpl. rewrite Hd. reflexivity.
Qed.

Lemma landing_box_sound :
  ibox_contains landing_box
    (Glsl.lift4
       (Glsl.add3 far_origin (Glsl.scale3 x_axis (0 + far_step))) 0.0).
Proof.
  unfold ibox_contains, landing_box, Glsl.lift4, Glsl.add3, Glsl.scale3,
    far_origin, x_axis.
  cbn [ix iy iz iw x4 y4 z4 w4 x3 y3 z3].
  split; [| split; [| split]]; try zero_point.
  apply between_sound
    with (nl := (-34294729000)%Z) (nh := (-34294709875)%Z)
         (d := 1000000000000%Z).
  - reflexivity.
  - vm_compute. discriminate.
  - vm_compute. discriminate.
  - pose proof ln_85_bounds as [Hlo Hhi].
    unfold far_step, STEP_SCALE. lra.
Qed.

Lemma far_second_sample :
  exists d : R,
    sample first_frame far_origin x_axis 1 = Some (0 + far_step, d) /\
    d < MIN_DIST.
Proof.
  destruct (DE_negative_by_check first_frame
              (Glsl.add3 far_origin (Glsl.scale3 x_axis (0 + far_step)))
              landing_box)
    as (e & He & Hneg);
    [reflexivity | reflexivity | exact landing_box_sound
     | vm_compute; reflexivity |].
  exists (e * STEP_SCALE). split.
  - unfold sample. rewrite far_travel_1. simpl bind.
    unfold damped. rewrite He. reflexivity.
  - unfold STEP_SCALE, MIN_DIST. lra.
Qed.

Lemma far_ray_result :
  rayMarch first_frame far_origin x_axis = Some (0 + far_step).
Proof.
  destruct far_second_sample as (d & Hs & Hd).
  apply march_is_rayMarch.
  apply spec_hit with (k := 1%nat) (d := d).
  - lia.
  - intros j Hj. replace j with 0%nat by lia. exact far_goes_on_first.
  - exact Hs.
  - exact Hd.
Qed.

(** C4, as stated, fails: the ray from [(-85, 0, 0)] along the x axis in
    the first frame steps by about 84.97 to a point inside the set, where
    the estimate is negative, and [rayMarch] returns that travel
    distance, which is greater than 40.0. *)
Lemma rayMarch_returns_beyond_max :
  rayMarch first_frame far_origin x_axis = Some (0 + far_step) /\
  MAX_DIST < 0 + far_step.
Proof.
  split.
  - exact far_ray_result.
  - pose proof far_step_bounds. unfold MAX_DIST. lra.
Qed.

(** C4, amended: the value [rayMarch] returns is nonnegative and is
    either exactly 40.0 or the travel distance at which the march stopped,
    all earlier travel distances of the march being at most 40.0: a
    returned travel distance can exceed 40.0 by the last step. *)
Theorem rayMarch_result_range (u : uniforms) (ro rd : vec3) (v : R) :
  rayMarch u ro rd = Some v ->
  0 <= v /\
  (v = MAX_DIST \/
   exists k : nat,
     (k <= 512)%nat /\ travel u ro rd k = Some v /\
     forall j : nat, (j < k)%nat ->
       exists t : R, travel u ro rd j = Some t /\ t <= MAX_DIST).
Proof.
  intros Hret. apply rayMarch_is_march in Hret.
  assert (Hbefore : forall k,
            (forall j, (j < k)%nat -> goes_on u ro rd j) ->
            forall j, (j < k)%nat ->
              exists t : R, travel u ro rd j = Some t /\ t <= MAX_DIST).
  { intros k Hgo j Hj.
    destruct (goes_on_travel u ro rd j (Hgo j Hj)) as (t & d & Ht & _ & Hle & _).
    exists t. auto. }
  destruct Hret as [k t d Hk Hb Hs Hd | k t d Hk Hb Hs Hd Hf Hn
                    | k t d Hk Hb Hs Hd Hf Hn | t Hb Ht Hn | Hb Hn].
  - destruct (sample_travel u ro rd k t d Hs) as [Ht _]. split.
    + apply (travel_nonneg u ro rd k); assumption.
    + right. exists k. split; [lia |]. split; [exact Ht |]. apply Hbefore, Hb.
  - destruct (sample_travel u ro rd k t d Hs) as [Ht _]. split.
    + apply (travel_nonneg u ro rd k); assumption.
    + right. exists k. split; [lia |]. split; [exact Ht |]. apply Hbefore, Hb.
  - split; [unfold MAX_DIST; lra | left; reflexivity].
  - split.
    + apply (travel_nonneg u ro rd 512); assumption.
    + right. exists 512%nat. split; [lia |]. split; [exact Ht |].
      apply Hbefore, Hb.
  - split; [unfold MAX_DIST; lra | left; reflexivity].
Qed.

Lemma rayMarch_result_range_witness :
  0 <= 0 + far_step /\
  (0 + far_step = MAX_DIST \/
   exists k : nat,
     (k <= 512)%nat /\
     travel first_frame far_origin x_axis k = Some (0 + far_step) /\
     forall j : nat, (j < k)%nat ->
       exists t : R,
         travel first_frame far_origin x_axis j = Some t /\ t <= MAX_DIST).
Proof.
  apply (rayMarch_result_range first_frame far_origin x_axis).
  exact far_ray_result.
Defined.

(** * Further properties of the shader functions *)

(** ** Quaternion algebra *)

Definition q_norm2 (a : vec4) : R :=
  x4 a * x4 a + y4 a * y4 a + z4 a * z4 a + w4 a * w4 a.

(** X1: [qmul] is associative, [(1,0,0,0)] is also a left identity, and
    [qmul] distributes over the componentwise sum on both sides. *)
Theorem qmul_ring_laws (a b c : vec4) :
  qmul (qmul a b) c = qmul a (qmul b c) /\
  qmul (mkvec4 1 0 0 0) a = a /\
  qmul a (Glsl.add4 b c) = Glsl.add4 (qmul a b) (qmul a c) /\
  qmul (Glsl.add4 a b) c = Glsl.add4 (qmul a c) (qmul b c).
Proof.
  repeat split; apply vec4_eq; simpl; ring.
Qed.

Lemma q_norm2_mult (a b : vec4) :
  q_norm2 (qmul a b) = q_norm2 a * q_norm2 b.
Proof. unfold q_norm2, qmul. simpl. ring. Qed.

(** X2: the length of a product is the product of the lengths; in
    particular the update [z * z] of the estimator squares the radius. *)
Theorem qmul_length (a b : vec4) :
  Glsl.length4 (qmul a b) = Glsl.length4 a * Glsl.length4 b /\
  Glsl.length4 (qmul a a) = Glsl.length4 a * Glsl.length4 a.
Proof.
  assert (H : forall p q, Glsl.length4 (qmul p q)
                          = Glsl.length4 p * Glsl.length4 q).
  { intros p q. unfold Glsl.length4.
    rewrite <- sqrt_mult by apply norm2_nonneg.
    f_equal. apply (q_norm2_mult p q). }
  split; apply H.
Qed.

(** ** The rotated constant *)

(** The uniforms [u] at another time. *)
Definition at_time (u : uniforms) (t : R) : uniforms :=
  mkuniforms (resolution u) t (quaternionC u) (cameraPosition u).

Lemma rotation_norm (x y a : R) :
  (x * cos a - y * sin a) * (x * cos a - y * sin a)
  + (x * sin a + y * cos a) * (x * sin a + y * cos a)
  = x * x + y * y.
Proof.
  pose proof (sin2_cos2 a) as H. unfold Rsqr in H.
  replace ((x * cos a - y * sin a) * (x * cos a - y * sin a)
           + (x * sin a + y * cos a) * (x * sin a + y * cos a))
    with ((x * x + y * y) * (sin a * sin a + cos a * cos a)) by ring.
  rewrite H. ring.
Qed.

Lemma rotated_c_norm (u : uniforms) :
  Glsl.length4 (rotated_c u) = Glsl.length4 (quaternionC u).
Proof.
  unfold Glsl.length4, rotated_c. cbv zeta. cbn [x4 y4 z4 w4]. f_equal.
  pose proof (rotation_norm (x4 (quaternionC u)) (y4 (quaternionC u))
                (time u * 0.2)) as H1.
  pose proof (rotation_norm (z4 (quaternionC u)) (w4 (quaternionC u))
                (time u * 0.2 * 0.7)) as H2.
  lra.
Qed.

(** X3: the two rotations keep the length of the constant, whatever the
    time. *)
Theorem rotated_c_length (u : uniforms) :
  Glsl.length4 (rotated_c u) = Glsl.length4 (quaternionC u).
Proof. exact (rotated_c_norm u). Qed.

Lemma rotated_c_period (u : uniforms) :
  rotated_c (at_time u (time u + 100 * PI)) = rotated_c u.
Proof.
  unfold rotated_c, at_time. cbv zeta. cbn [time quaternionC].
  replace ((time u + 100 * PI) * 0.2)
    with (time u * 0.2 + 2 * INR 10 * PI) by (simpl; lra).
  replace ((time u * 0.2 + 2 * INR 10 * PI) * 0.7)
    with (time u * 0.2 * 0.7 + 2 * INR 7 * PI) by (simpl; lra).
  rewrite !cos_period, !sin_period. reflexivity.
Qed.

(** X4: the distance estimate is periodic in time, with period
    [100 * PI]: after that time both rotation angles have made whole
    turns. *)
Theorem DE_time_period (u : uniforms) (pos : vec3) :
  DE (at_time u (time u + 100 * PI)) pos = DE u pos.
Proof.
  unfold DE. rewrite rotated_c_period. reflexivity.
Qed.

(** ** Symmetry and sign of the estimate *)

(** X5: the distance estimate is an even function of the point: the set
    that is rendered is symmetric about the origin. *)
Theorem DE_point_symmetric (u : uniforms) (p : vec3) :
  DE u (mkvec3 (- x3 p) (- y3 p) (- z3 p)) = DE u p.
Proof. exact (DE_even u p). Qed.

(** X6: a defined distance estimate is negative exactly when the radius
    the loop ends with is below 1, zero exactly when it is 1, and positive
    exactly when it is above 1. *)
Theorem DE_sign (u : uniforms) (pos : vec3) (v : R) :
  DE u pos = Some v ->
  (v < 0 <-> DE_radius u pos < 1) /\
  (v = 0 <-> DE_radius u pos = 1) /\
  (0 < v <-> 1 < DE_radius u pos).
Proof.
  rewrite DE_value.
  pose proof (DE_dr_ge_1 u pos) as Hdr.
  set (r := DE_radius u pos) in *. set (dr := DE_dr u pos) in *.
  destruct (Rlt_dec 0 r) as [Hr | Hr]; intros Hv; [| discriminate Hv].
  inversion Hv as [E]. clear Hv.
  assert (Hinv : 0 < / dr) by (apply Rinv_0_lt_compat; lra).
  assert (Hk : 0 < 0.5 * r * / dr) by nra.
  replace (0.5 * ln r * r / dr) with (ln r * (0.5 * r * / dr))
    by (unfold Rdiv; ring).
  set (k := 0.5 * r * / dr) in *.
  assert (Hlt : r < 1 -> ln r < 0).
  { intros H. rewrite <- ln_1. apply ln_increasing; lra. }
  assert (Hgt : 1 < r -> 0 < ln r).
  { intros H. rewrite <- ln_1. apply ln_increasing; lra. }
  assert (Heq : r = 1 -> ln r = 0) by (intros ->; apply ln_1).
  destruct (Rtotal_order r 1) as [H | [H | H]].
  - specialize (Hlt H). repeat split; intros; try lra; nra.
  - specialize (Heq H). rewrite Heq. repeat split; intros; lra.
  - specialize (Hgt H). repeat split; intros; try lra; nra.
Qed.

Lemma length_5_0_0 : Glsl.length (mkvec3 5 0 0) = 5.
Proof.
  unfold Glsl.length. simpl.
  replace (5 * 5 + 0 * 0 + 0 * 0) with (5 * 5) by ring.
  apply sqrt_square. lra.
Qed.

Lemma DE_sign_witness :
  (0.5 * ln 5 * 5 < 0 <-> DE_radius first_frame (mkvec3 5 0 0) < 1) /\
  (0.5 * ln 5 * 5 = 0 <-> DE_radius first_frame (mkvec3 5 0 0) = 1) /\
  (0 < 0.5 * ln 5 * 5 <-> 1 < DE_radius first_frame (mkvec3 5 0 0)).
Proof.
  apply (DE_sign first_frame (mkvec3 5 0 0)).
  rewrite DE_far by (rewrite length_5_0_0; lra).
  rewrite length_5_0_0. reflexivity.
Defined.

(** ** The gradient is odd *)

Definition opt_neg3 (o : option vec3) : option vec3 :=
  match o with
  | Some v => Some (Glsl.neg3 v)
  | None => None
  end.

Lemma DE_add_neg (u : uniforms) (p e : vec3) :
  DE u (Glsl.add3 (Glsl.neg3 p) e) = DE u (Glsl.sub3 p e).
Proof.
  rewrite <- (DE_even u (Glsl.sub3 p e)). f_equal.
  apply vec3_eq; simpl; ring.
Qed.

Lemma DE_sub_neg (u : uniforms) (p e : vec3) :
  DE u (Glsl.sub3 (Glsl.neg3 p) e) = DE u (Glsl.add3 p e).
Proof.
  rewrite <- (DE_even u (Glsl.add3 p e)). f_equal.
  apply vec3_eq; simpl; ring.
Qed.

Lemma gradient_odd (u : uniforms) (p : vec3) :
  gradient u (Glsl.neg3 p) = opt_neg3 (gradient u p).
Proof.
  unfold gradient. cbv zeta.
  rewrite !DE_add_neg, !DE_sub_neg.
  destruct (DE u (Glsl.add3 p _)) as [a1 |],
           (DE u (Glsl.sub3 p _)) as [a2 |],
           (DE u (Glsl.add3 p _)) as [b1 |],
           (DE u (Glsl.sub3 p _)) as [b2 |],
           (DE u (Glsl.add3 p _)) as [c1 |],
           (DE u (Glsl.sub3 p _)) as [c2 |];
    simpl; try reflexivity.
  f_equal. apply vec3_eq; simpl; ring.
Qed.

Lemma length_neg3 (g : vec3) : Glsl.length (Glsl.neg3 g) = Glsl.length g.
Proof. unfold Glsl.length. f_equal. simpl. ring. Qed.

Lemma normalize_odd (g : vec3) :
  Glsl.normalize (Glsl.neg3 g) = opt_neg3 (Glsl.normalize g).
Proof.
  unfold Glsl.normalize. rewrite length_neg3. unfold Glsl.div.
  destruct (Req_dec_T (Glsl.length g) 0) as [_ | Hl]; [reflexivity |].
  simpl. f_equal. apply vec3_eq; simpl; field; exact Hl.
Qed.

(** X7: the central-difference gradient and the normal are odd functions
    of the point: at [- p] they are the opposite of what they are at [p],
    and undefined exactly when they are undefined at [p]. *)
Theorem getNormal_odd (u : uniforms) (p : vec3) :
  gradient u (Glsl.neg3 p) = opt_neg3 (gradient u p) /\
  getNormal u (Glsl.neg3 p) = opt_neg3 (getNormal u p).
Proof.
  split; [apply gradient_odd |].
  unfold getNormal. rewrite gradient_odd.
  destruct (gradient u p) as [g |]; simpl; [| reflexivity].
  apply normalize_odd.
Qed.

(** ** What the march result says about the samples *)

(** X13: a value other than the sentinel 40.0 is returned only when a
    damped distance below 0.1 was observed on the way. *)
Theorem rayMarch_hit_was_near (u : uniforms) (ro rd : vec3) (v : R) :
  rayMarch u ro rd = Some v -> v <> MAX_DIST ->
  exists (j : nat) (t d : R),
    (j < 512)%nat /\ sample u ro rd j = Some (t, d) /\ d < 0.1.
Proof.
  intros Hret Hv. apply rayMarch_is_march in Hret.
  destruct Hret as [k t d Hk Hb Hs Hd | k t d Hk Hb Hs Hd Hf Hn
                    | k t d Hk Hb Hs Hd Hf Hn | t Hb Ht Hn | Hb Hn];
    try contradiction.
  - exists k, t, d. repeat split; auto. unfold MIN_DIST in Hd. lra.
  - destruct Hn as (j & t' & d' & Hj & Hs' & Hd').
    exists j, t', d'. repeat split; auto. lia.
  - exact Hn.
Qed.

Lemma rayMarch_hit_was_near_witness :
  exists (j : nat) (t d : R),
    (j < 512)%nat /\
    sample first_frame far_origin x_axis j = Some (t, d) /\ d < 0.1.
Proof.
  apply (rayMarch_hit_was_near first_frame far_origin x_axis (0 + far_step)).
  - exact far_ray_result.
  - pose proof far_step_bounds. unfold MAX_DIST. lra.
Defined.

Lemma ray_start (ro rd : vec3) : Glsl.add3 ro (Glsl.scale3 rd 0) = ro.
Proof. apply vec3_eq; simpl; ring. Qed.

(** X14: when the damped estimate at the ray origin is below [1e-4], the
    march returns 0 whatever the direction: a camera inside the set sees
    a hit at its own position in every pixel. *)
Theorem rayMarch_hit_at_origin (u : uniforms) (ro rd : vec3) (e : R) :
  DE u ro = Some e -> e * STEP_SCALE < MIN_DIST ->
  rayMarch u ro rd = Some 0.
Proof.
  intros He Hd. apply march_is_rayMarch.
  apply spec_hit with (k := 0%nat) (d := e * STEP_SCALE).
  - lia.
  - intros j Hj. lia.
  - unfold sample. simpl travel. simpl bind. unfold damped.
    rewrite ray_start, He. reflexivity.
  - exact Hd.
Qed.

Definition zero_box : ibox :=
  mkibox (Ival.point 0) (Ival.point 0) (Ival.point 0) (Ival.point 0).

Lemma DE_origin_negative :
  exists e : R, DE first_frame origin = Some e /\ e < 0.
Proof.
  apply DE_negative_by_check with (b := zero_box);
    [reflexivity | reflexivity | | vm_compute; reflexivity].
  unfold ibox_contains, zero_box, Glsl.lift4, origin.
  cbn [ix iy iz iw x4 y4 z4 w4 x3 y3 z3].
  split; [| split; [| split]]; zero_point.
Qed.

Lemma rayMarch_hit_at_origin_witness :
  rayMarch first_frame origin x_axis = Some 0.
Proof.
  destruct DE_origin_negative as (e & He & Hneg).
  apply (rayMarch_hit_at_origin first_frame origin x_axis e He).
  unfold STEP_SCALE, MIN_DIST. lra.
Defined.

(** ** Rays that stay outside the radius 4 *)

Lemma ln_4_gt_1 : 1 < ln 4.
Proof.
  replace 4 with (2 * 2) by lra.
  rewrite ln_mult by lra. pose proof ln_lt_2. lra.
Qed.

(** Outside the radius 4 the damped estimate exceeds 0.9. *)
Lemma damped_far (u : uniforms) (ro rd : vec3) (t : R) :
  4 < Glsl.length (Glsl.add3 ro (Glsl.scale3 rd t)) ->
  exists d : R, damped u ro rd t = Some d /\ 0.9 < d.
Proof.
  intros Hfar. unfold damped. rewrite (DE_far u _ Hfar). simpl bind.
  eexists. split; [reflexivity |].
  set (r := Glsl.length (Glsl.add3 ro (Glsl.scale3 rd t))) in *.
  assert (Hln : 1 < ln r).
  { apply Rlt_trans with (ln 4); [exact ln_4_gt_1 |].
    apply ln_increasing; lra. }
  unfold STEP_SCALE. nra.
Qed.

Lemma ray_moves_away (ro rd : vec3) (t : R) :
  0 <= Glsl.dot ro rd -> 0 <= t ->
  Glsl.length ro <= Glsl.length (Glsl.add3 ro (Glsl.scale3 rd t)).
Proof.
  intros Hdot Ht. unfold Glsl.length. apply sqrt_le_1_alt.
  unfold Glsl.dot in Hdot. simpl.
  assert (H : 0 <= t * (x3 ro * x3 rd + y3 ro * y3 rd + z3 ro * z3 rd))
    by (apply Rmult_le_pos; assumption).
  nra.
Qed.

Section Away.

Variable u : uniforms.
Variables ro rd : vec3.
Hypothesis Hout : 4 < Glsl.length ro.
Hypothesis Haway : 0 <= Glsl.dot ro rd.

Lemma away_sample (k : nat) (t : R) :
  travel u ro rd k = Some t -> 0 <= t ->
  exists d : R, sample u ro rd k = Some (t, d) /\ 0.9 < d.
Proof.
  intros Htr Ht.
  destruct (damped_far u ro rd t) as (d & Hd & Hlt).
  { pose proof (ray_moves_away ro rd t Haway Ht). lra. }
  exists d. split; [| exact Hlt].
  unfold sample. rewrite Htr. simpl. rewrite Hd. reflexivity.
Qed.

Lemma away_travel (k : nat) :
  (forall j, (j < k)%nat -> goes_on u ro rd j) ->
  exists t : R, travel u ro rd k = Some t /\ 0.9 * INR k <= t.
Proof.
  induction k as [| k IH]; intros Hgo.
  - exists 0. split; [reflexivity | simpl; lra].
  - destruct IH as (t & Ht & Hle); [intros j Hj; apply Hgo; lia |].
    assert (Ht0 : 0 <= t) by (pose proof (pos_INR k); lra).
    destruct (away_sample k t Ht Ht0) as (d & Hs & Hd).
    destruct (sample_travel u ro rd k t d Hs) as [_ Hda].
    exists (t + d). split.
    + simpl. rewrite Ht. simpl. rewrite Hda. reflexivity.
    + rewrite S_INR. lra.
Qed.

Lemma away_sample_far (k : nat) (t d : R) :
  (forall j, (j < k)%nat -> goes_on u ro rd j) ->
  sample u ro rd k = Some (t, d) -> 0.9 < d.
Proof.
  intros Hgo Hs.
  destruct (away_travel k Hgo) as (t' & Ht' & Hle).
  assert (Ht0 : 0 <= t') by (pose proof (pos_INR k); lra).
  destruct (away_sample k t' Ht' Ht0) as (d' & Hs' & Hd').
  rewrite Hs in Hs'. inversion Hs'; subst. exact Hd'.
Qed.

Lemma away_never_near (k : nat) :
  (forall j, (j < k)%nat -> goes_on u ro rd j) -> ~ near_upto u ro rd (S k).
Proof.
  intros Hgo (j & t & d & Hj & Hs & Hd).
  assert (Hd' : 0.9 < d).
  { apply (away_sample_far j t d); [| exact Hs].
    intros i Hi. apply Hgo. lia. }
  lra.
Qed.

Lemma away_result : rayMarch u ro rd = Some MAX_DIST.
Proof.
  pose proof (rayMarch_outcome u ro rd) as Hres. unfold rayMarch.
  destruct Hres as [k Hk Hb Hs | k t d Hk Hb Hs Hd
                    | k t d m Hk Hb Hs Hd Hf Hm | t m Hb Ht Hm].
  - exfalso. destruct (away_travel k Hb) as (t & Ht & Hle).
    assert (Ht0 : 0 <= t) by (pose proof (pos_INR k); lra).
    destruct (away_sample k t Ht Ht0) as (d & Hs' & _). congruence.
  - exfalso. pose proof (away_sample_far k t d Hb Hs) as Hd'.
    unfold MIN_DIST in Hd. lra.
  - simpl bind. destruct (Rlt_dec m 0.1) as [Hnear | _]; [| reflexivity].
    exfalso. apply (away_never_near k Hb). tauto.
  - exfalso.
    assert (Hgo : forall j, (j < 45)%nat -> goes_on u ro rd j)
      by (intros j Hj; apply Hb; lia).
    destruct (away_travel 45 Hgo) as (t45 & Ht45 & Hle).
    assert (H45 : goes_on u ro rd 45) by (apply Hb; lia).
    destruct H45 as (t' & d' & Hs' & _ & Hnf).
    destruct (sample_travel u ro rd 45 t' d' Hs') as [Ht' _].
    rewrite Ht45 in Ht'. inversion Ht'; subst t'.
    rewrite INR_IZR_INZ in Hle. simpl Z.of_nat in Hle.
    unfold MAX_DIST in Hnf. lra.
Qed.

End Away.

(** X8: a ray that starts farther than 4 from the origin and does not
    point towards it (the direction makes a nonnegative dot product with
    the origin of the ray) is a miss: [rayMarch] returns exactly the
    sentinel 40.0, whatever the time and the constant. *)
Theorem rayMarch_away_is_miss (u : uniforms) (ro rd : vec3) :
  4 < Glsl.length ro -> 0 <= Glsl.dot ro rd ->
  rayMarch u ro rd = Some MAX_DIST.
Proof. apply away_result. Qed.

Lemma rayMarch_away_is_miss_witness :
  rayMarch first_frame (mkvec3 5 0 0) (mkvec3 1 0 0) = Some MAX_DIST.
Proof.
  apply rayMarch_away_is_miss.
  - rewrite length_5_0_0. lra.
  - unfold Glsl.dot. simpl. lra.
Defined.

(** ** Unit vectors *)

Lemma dot_self_nonneg (v : vec3) : 0 <= Glsl.dot v v.
Proof. unfold Glsl.dot. nra. Qed.

Lemma normalize_some (w r : vec3) :
  Glsl.normalize w = Some r -> 0 < Glsl.dot w w /\ r = unit3 w.
Proof.
  unfold Glsl.normalize, Glsl.div.
  destruct (Req_dec_T (Glsl.length w) 0) as [Hz | Hnz]; simpl;
    [intros H; discriminate H |].
  intros H. inversion H; subst. split; [| reflexivity].
  pose proof (dot_self_nonneg w) as Hge.
  destruct Hge as [Hpos | Hzero]; [exact Hpos |].
  exfalso. apply Hnz. unfold Glsl.length. unfold Glsl.dot in Hzero.
  rewrite <- Hzero. apply sqrt_0.
Qed.

Lemma unit3_dot (g : vec3) :
  0 < Glsl.dot g g -> Glsl.dot (unit3 g) (unit3 g) = 1.
Proof.
  intros Hpos.
  pose proof (unit3_length g Hpos) as Hlen.
  unfold Glsl.length in Hlen. fold (Glsl.dot (unit3 g) (unit3 g)) in Hlen.
  pose proof (dot_self_nonneg (unit3 g)) as Hge.
  rewrite <- (sqrt_sqrt _ Hge), Hlen. ring.
Qed.

Lemma unit_length_of_dot (v : vec3) : Glsl.dot v v = 1 -> Glsl.length v = 1.
Proof.
  intros H. unfold Glsl.length. fold (Glsl.dot v v). rewrite H. apply sqrt_1.
Qed.

Lemma cauchy_schwarz3 (a b : vec3) :
  Glsl.dot a b * Glsl.dot a b <= Glsl.dot a a * Glsl.dot b b.
Proof.
  unfold Glsl.dot.
  assert (H : (x3 a * x3 a + y3 a * y3 a + z3 a * z3 a)
              * (x3 b * x3 b + y3 b * y3 b + z3 b * z3 b)
              - (x3 a * x3 b + y3 a * y3 b + z3 a * z3 b)
                * (x3 a * x3 b + y3 a * y3 b + z3 a * z3 b)
              = (x3 a * y3 b - y3 a * x3 b) * (x3 a * y3 b - y3 a * x3 b)
                + (x3 a * z3 b - z3 a * x3 b) * (x3 a * z3 b - z3 a * x3 b)
                + (y3 a * z3 b - z3 a * y3 b) * (y3 a * z3 b - z3 a * y3 b))
    by ring.
  pose proof (Rle_0_sqr (x3 a * y3 b - y3 a * x3 b)) as S1.
  pose proof (Rle_0_sqr (x3 a * z3 b - z3 a * x3 b)) as S2.
  pose proof (Rle_0_sqr (y3 a * z3 b - z3 a * y3 b)) as S3.
  unfold Rsqr in S1, S2, S3. lra.
Qed.

Lemma dot_units_le_1 (a b : vec3) :
  Glsl.dot a a = 1 -> Glsl.dot b b = 1 -> Glsl.dot a b <= 1.
Proof.
  intros Ha Hb. pose proof (cauchy_schwarz3 a b) as H.
  rewrite Ha, Hb in H. nra.
Qed.

Lemma dot_neg3 (v : vec3) : Glsl.dot (Glsl.neg3 v) (Glsl.neg3 v) = Glsl.dot v v.
Proof. unfold Glsl.dot. simpl. ring. Qed.

(** Reflection about a unit normal keeps the length. *)
Lemma reflect_dot (i n : vec3) :
  Glsl.dot n n = 1 ->
  Glsl.dot (Glsl.reflect i n) (Glsl.reflect i n) = Glsl.dot i i.
Proof.
  intros Hn.
  assert (H : Glsl.dot (Glsl.reflect i n) (Glsl.reflect i n)
              = Glsl.dot i i
                + 4 * (Glsl.dot n i * Glsl.dot n i) * (Glsl.dot n n - 1)).
  { unfold Glsl.reflect, Glsl.dot. simpl. ring. }
  rewrite H, Hn. ring.
Qed.

(** X10: the ray direction is undefined when the fragment is at the
    camera position, and has length 1 whenever it is defined. *)
Theorem ray_dir_unit (u : uniforms) (v : varyings) :
  (vWorldPosition v = cameraPosition u -> ray_dir u v = None) /\
  (forall rd : vec3, ray_dir u v = Some rd -> Glsl.length rd = 1).
Proof.
  split.
  - unfold ray_dir. intros ->.
    rewrite normalize_zero_length; [reflexivity |].
    unfold Glsl.length, Glsl.sub3. simpl.
    replace ((x3 (cameraPosition u) - x3 (cameraPosition u))
             * (x3 (cameraPosition u) - x3 (cameraPosition u))
             + (y3 (cameraPosition u) - y3 (cameraPosition u))
               * (y3 (cameraPosition u) - y3 (cameraPosition u))
             + (z3 (cameraPosition u) - z3 (cameraPosition u))
               * (z3 (cameraPosition u) - z3 (cameraPosition u)))
      with 0 by ring.
    apply sqrt_0.
  - intros rd. unfold ray_dir.
    destruct (Glsl.normalize (Glsl.sub3 _ _)) as [rd0 |]; simpl;
      [| intros H; discriminate H].
    intros H. apply normalize_some in H. destruct H as [Hpos ->].
    apply unit3_length. exact Hpos.
Qed.

(** ** The range of the colour *)

Lemma light1_unit (u : uniforms) :
  Glsl.dot (light1_spec u) (light1_spec u) = 1.
Proof.
  apply unit3_dot. unfold Glsl.dot. simpl.
  pose proof (sin2_cos2 (time u)) as H. unfold Rsqr in H. nra.
Qed.

Lemma light2_unit : Glsl.dot light2_spec light2_spec = 1.
Proof. apply unit3_dot. unfold Glsl.dot. simpl. lra. Qed.

Lemma lambert_range (n l : vec3) :
  Glsl.dot n n = 1 -> Glsl.dot l l = 1 -> 0 <= lambert n l <= 1.
Proof.
  intros Hn Hl. unfold lambert. split.
  - apply Rmax_r.
  - apply Rmax_lub; [apply dot_units_le_1; assumption | lra].
Qed.

Lemma specular_range (n l rd : vec3) :
  Glsl.dot n n = 1 -> Glsl.dot l l = 1 -> Glsl.dot rd rd = 1 ->
  0 <= specular n l rd <= 1.
Proof.
  intros Hn Hl Hrd. unfold specular.
  set (b := Rmax (Glsl.dot (Glsl.reflect (Glsl.neg3 l) n) (Glsl.neg3 rd)) 0).
  assert (Hb : 0 <= b <= 1).
  { unfold b. split; [apply Rmax_r |].
    apply Rmax_lub; [| lra].
    apply dot_units_le_1.
    - rewrite reflect_dot by exact Hn. rewrite dot_neg3. exact Hl.
    - rewrite dot_neg3. exact Hrd. }
  split.
  - apply pow_le. lra.
  - rewrite <- (pow1 32). apply pow_incr. exact Hb.
Qed.

Lemma glow_range (h : R) : 0 <= h -> 0 < exp (- h * 1.5) <= 1.
Proof.
  intros Hh. split; [apply exp_pos |].
  destruct (Req_dec_T h 0) as [-> | Hnz].
  - replace (- 0 * 1.5) with 0 by lra. rewrite exp_0. lra.
  - left. rewrite <- exp_0. apply exp_increasing. lra.
Qed.

Lemma shade_component_range (b d1 d2 s1 s2 h : R) :
  0 <= b <= 1 -> 0 <= d1 <= 1 -> 0 <= d2 <= 1 ->
  0 <= s1 <= 1 -> 0 <= s2 <= 1 -> 0 <= h ->
  0 <= shade_component b d1 d2 s1 s2 h <= 1.9.
Proof.
  intros Hb Hd1 Hd2 Hs1 Hs2 Hh. unfold shade_component.
  pose proof (glow_range h Hh) as Hg.
  set (g := exp (- h * 1.5)) in *.
  assert (H1 : 0 <= b * (0.2 + 0.4 * d1 + 0.2 * d2) <= 0.8) by nra.
  assert (H2 : 0 <= b * g <= 1) by nra.
  lra.
Qed.

Lemma shade_spec_range (u : uniforms) (rd p n : vec3) :
  Glsl.dot n n = 1 -> Glsl.dot rd rd = 1 ->
  0 <= x3 (shade_spec u rd p n) <= 1.9 /\
  0 <= y3 (shade_spec u rd p n) <= 1.9 /\
  0 <= z3 (shade_spec u rd p n) <= 1.9.
Proof.
  intros Hn Hrd. unfold shade_spec. cbv zeta. cbn [x3 y3 z3].
  pose proof (lambert_range n (light1_spec u) Hn (light1_unit u)).
  pose proof (lambert_range n light2_spec Hn light2_unit).
  pose proof (specular_range n (light1_spec u) rd Hn (light1_unit u) Hrd).
  pose proof (specular_range n light2_spec rd Hn light2_unit Hrd).
  assert (Hh : 0 <= Glsl.length p) by apply sqrt_pos.
  rewrite palette_components. cbn [x3 y3 z3].
  repeat split; apply shade_component_range; auto using half_cos_bounds.
Qed.

(** X11: whenever the colour written by [main] is defined, each of its
    components is between 0 and 1.9: the base colour, the Lambertian and
    the specular terms are all between 0 and 1, and the glow is at most
    1. *)
Theorem main_color_range (u : uniforms) (v : varyings) (col : vec3) :
  rgb (main u v) = Some col ->
  0 <= x3 col <= 1.9 /\ 0 <= y3 col <= 1.9 /\ 0 <= z3 col <= 1.9.
Proof.
  unfold main. cbn [rgb].
  destruct (ray_dir u v) as [rd |] eqn:Hrd; simpl bind;
    [| intros H; discriminate H].
  assert (Hunit : Glsl.dot rd rd = 1).
  { unfold ray_dir in Hrd.
    destruct (Glsl.normalize (Glsl.sub3 _ _)) as [rd0 |]; simpl in Hrd;
      [| discriminate Hrd].
    apply normalize_some in Hrd. destruct Hrd as [Hpos ->].
    apply unit3_dot. exact Hpos. }
  destruct (rayMarch u (cameraPosition u) rd) as [t |]; simpl bind;
    [| intros H; discriminate H].
  destruct (Rlt_dec t MAX_DIST) as [_ | _].
  - rewrite shade_follows_spec. cbv zeta. unfold getNormal.
    destruct (gradient u _) as [g |]; simpl bind;
      [| intros H; discriminate H].
    destruct (Glsl.normalize g) as [n |] eqn:Hn; simpl bind;
      [| intros H; discriminate H].
    intros H. inversion H; subst col.
    apply normalize_some in Hn. destruct Hn as [Hpos ->].
    apply shade_spec_range; [apply unit3_dot; exact Hpos | exact Hunit].
  - intros H. inversion H; subst col. unfold Glsl.splat3. simpl. lra.
Qed.

(** ** Fragments on the x axis *)

Lemma normalize_along_x (v : vec3) :
  0 < x3 v -> y3 v = 0 -> z3 v = 0 -> Glsl.normalize v = Some (mkvec3 1 0 0).
Proof.
  intros Hx Hy Hz.
  assert (Hl : Glsl.length v = x3 v).
  { unfold Glsl.length. rewrite Hy, Hz.
    replace (x3 v * x3 v + 0 * 0 + 0 * 0) with (x3 v * x3 v) by ring.
    apply sqrt_square. lra. }
  rewrite normalize_defined by (rewrite Hy, Hz; nra).
  f_equal. unfold unit3. rewrite Hl, Hy, Hz.
  apply vec3_eq; simpl; field; lra.
Qed.


(** ** A fragment that is shaded

    A camera on the x axis just inside the set, at [(0.4828, 0, 0)]: the
    estimate is negative there and at [x - 0.0001], and positive at
    [x + 0.0001]. *)

(** The enclosure proves a radius above 1. *)
Definition outside_unit (q : Ival.t) : bool := (Ival.scale <? Ival.lo q)%Z.

(** The loop on the box [b] ends with a radius proved to be above 1. *)
Definition checked_outside (b : ibox) : bool :=
  match orbit_check 20 host_box b (Ival.point 0) with
  | Some q => outside_unit q
  | None => false
  end.

(** The point with the coordinates [kx], [ky], [kz] in units of
    [0.0001], as a box. *)
Definition axis_box (kx ky kz : Z) : ibox :=
  mkibox (Ival.point (kx * eps_fixed)) (Ival.point (ky * eps_fixed))
         (Ival.point (kz * eps_fixed)) (Ival.point 0).

Definition hit_camera : vec3 := mkvec3 0.4828 0 0.

Definition hit_frame : uniforms :=
  mkuniforms (mkvec2 800 600) 0 quaternionC_host hit_camera.

Definition hit_fragment : varyings :=
  mkvaryings (mkvec3 3 0 0) (mkvec3 3 0 0) (mkvec3 1 0 0).

Lemma DE_positive_by_check (u : uniforms) (pos : vec3) (b : ibox) :
  time u = 0 -> quaternionC u = quaternionC_host ->
  ibox_contains b (Glsl.lift4 pos 0.0) ->
  checked_outside b = true ->
  exists v : R, DE u pos = Some v /\ 0 < v.
Proof.
  intros Ht Hc Hb Hchk. unfold checked_outside in Hchk.
  destruct (orbit_check 20 host_box b (Ival.point 0)) as [q |] eqn:Hq;
    [| discriminate Hchk].
  assert (Hin : Ival.contains q (DE_radius u pos * DE_radius u pos)).
  { unfold DE_radius, DE_exit, ITERATIONS.
    rewrite (rotated_c_time_0 u Ht), Hc.
    apply orbit_check_sound with (cb := host_box) (b := b)
                                 (last := Ival.point 0);
      [exact host_box_sound | exact Hb | zero_point | lra | exact Hq]. }
  pose proof (DE_radius_nonneg u pos) as Hr.
  pose proof (DE_dr_ge_1 u pos) as Hdr.
  pose proof scale_pos as HS.
  unfold outside_unit in Hchk. apply Z.ltb_lt in Hchk. apply IZR_lt in Hchk.
  destruct Hin as [Hlo _].
  assert (Hsq : 1 < DE_radius u pos * DE_radius u pos).
  { apply Rmult_lt_reg_r with (IZR Ival.scale); lra. }
  assert (Hgt : 1 < DE_radius u pos) by nra.
  rewrite DE_value.
  destruct (Rlt_dec 0 (DE_radius u pos)) as [_ | H]; [| lra].
  eexists. split; [reflexivity |].
  assert (Hln : 0 < ln (DE_radius u pos)).
  { rewrite <- ln_1. apply ln_increasing; lra. }
  assert (Hinv : 0 < / DE_dr u pos) by (apply Rinv_0_lt_compat; lra).
  assert (Hnum : 0 < 0.5 * ln (DE_radius u pos) * DE_radius u pos) by nra.
  unfold Rdiv. nra.
Qed.

Lemma eps_fixed_scale : (eps_fixed * 10000 = Ival.scale)%Z.
Proof. vm_compute. reflexivity. Qed.

Lemma axis_box_sound (kx ky kz : Z) (p : vec3) :
  x3 p * 10000 = IZR kx -> y3 p * 10000 = IZR ky -> z3 p * 10000 = IZR kz ->
  ibox_contains (axis_box kx ky kz) (Glsl.lift4 p 0.0).
Proof.
  intros Hx Hy Hz.
  assert (Hk : forall k : Z, (k * eps_fixed * 10000 = k * Ival.scale)%Z).
  { intros k. rewrite <- Z.mul_assoc, eps_fixed_scale. reflexivity. }
  unfold ibox_contains, axis_box, Glsl.lift4.
  cbn [ix iy iz iw x4 y4 z4 w4].
  split; [| split; [| split]].
  - apply point_sound with (n := kx) (d := 10000%Z);
      [reflexivity | apply Hk | exact Hx].
  - apply point_sound with (n := ky) (d := 10000%Z);
      [reflexivity | apply Hk | exact Hy].
  - apply point_sound with (n := kz) (d := 10000%Z);
      [reflexivity | apply Hk | exact Hz].
  - zero_point.
Qed.

Ltac axis_point :=
  apply axis_box_sound;
  unfold Glsl.add3, Glsl.sub3, hit_camera, MIN_DIST; cbn [x3 y3 z3]; lra.

Lemma hit_camera_negative :
  exists e : R, DE hit_frame hit_camera = Some e /\ e < 0.
Proof.
  apply DE_negative_by_check with (b := axis_box 4828 0 0);
    [reflexivity | reflexivity | axis_point | vm_compute; reflexivity].
Qed.

(** The central differences at the camera: the first one is positive. *)
Lemma hit_gradient :
  exists g : vec3, gradient hit_frame hit_camera = Some g /\ 0 < x3 g.
Proof.
  unfold gradient. cbv zeta. cbn [x2 y2].
  destruct (DE_positive_by_check hit_frame
              (Glsl.add3 hit_camera (mkvec3 MIN_DIST 0.0 0.0))
              (axis_box 4829 0 0))
    as (a1 & Ha1 & Hpos);
    [reflexivity | reflexivity | axis_point | vm_compute; reflexivity |].
  destruct (DE_negative_by_check hit_frame
              (Glsl.sub3 hit_camera (mkvec3 MIN_DIST 0.0 0.0))
              (axis_box 4827 0 0))
    as (a2 & Ha2 & Hneg);
    [reflexivity | reflexivity | axis_point | vm_compute; reflexivity |].
  destruct (DE_defined_by_check hit_frame
              (Glsl.add3 hit_camera (mkvec3 0.0 MIN_DIST 0.0))
              (axis_box 4828 1 0))
    as (b1 & Hb1);
    [reflexivity | reflexivity | axis_point | vm_compute; reflexivity |].
  destruct (DE_defined_by_check hit_frame
              (Glsl.sub3 hit_camera (mkvec3 0.0 MIN_DIST 0.0))
              (axis_box 4828 (-1) 0))
    as (b2 & Hb2);
    [reflexivity | reflexivity | axis_point | vm_compute; reflexivity |].
  destruct (DE_defined_by_check hit_frame
              (Glsl.add3 hit_camera (mkvec3 0.0 0.0 MIN_DIST))
              (axis_box 4828 0 1))
    as (c1 & Hc1);
    [reflexivity | reflexivity | axis_point | vm_compute; reflexivity |].
  destruct (DE_defined_by_check hit_frame
              (Glsl.sub3 hit_camera (mkvec3 0.0 0.0 MIN_DIST))
              (axis_box 4828 0 (-1)))
    as (c2 & Hc2);
    [reflexivity | reflexivity | axis_point | vm_compute; reflexivity |].
  rewrite Ha1, Ha2, Hb1, Hb2, Hc1, Hc2. cbn [bind].
  eexists. split; [reflexivity |]. cbn [x3]. lra.
Qed.

Lemma hit_normal :
  exists n : vec3,
    getNormal hit_frame hit_camera = Some n /\ Glsl.dot n n = 1.
Proof.
  destruct hit_gradient as (g & Hg & Hx).
  assert (Hpos : 0 < Glsl.dot g g).
  { unfold Glsl.dot. nra. }
  exists (unit3 g). split.
  - unfold getNormal. rewrite Hg. cbn [bind].
    apply normalize_defined. exact Hpos.
  - apply unit3_dot. exact Hpos.
Qed.

Lemma hit_ray_dir : ray_dir hit_frame hit_fragment = Some x_axis.
Proof.
  unfold ray_dir, hit_frame, hit_fragment, hit_camera.
  cbn [vWorldPosition vNormal cameraPosition].
  rewrite normalize_along_x by (simpl; lra). simpl bind.
  apply normalize_along_x; simpl; lra.
Qed.

Lemma hit_march : rayMarch hit_frame hit_camera x_axis = Some 0.
Proof.
  destruct hit_camera_negative as (e & He & Hneg).
  apply march_is_rayMarch.
  apply spec_hit with (k := 0%nat) (d := e * STEP_SCALE).
  - lia.
  - intros j Hj. lia.
  - unfold sample. simpl travel. simpl bind. unfold damped.
    rewrite ray_start, He. reflexivity.
  - unfold STEP_SCALE, MIN_DIST. lra.
Qed.

(** The fragment is a hit at the camera, and [main] writes the shaded
    colour for the normal found there. *)
Lemma hit_fragment_shaded :
  exists n : vec3,
    getNormal hit_frame hit_camera = Some n /\
    rgb (main hit_frame hit_fragment)
    = Some (shade_spec hit_frame x_axis hit_camera n).
Proof.
  destruct hit_normal as (n & Hn & _).
  exists n. split; [exact Hn |].
  unfold main. cbn [rgb]. rewrite hit_ray_dir. simpl bind.
  change (cameraPosition hit_frame) with hit_camera.
  rewrite hit_march. simpl bind.
  destruct (Rlt_dec 0 MAX_DIST) as [_ | H]; [| unfold MAX_DIST in H; lra].
  rewrite shade_follows_spec. cbv zeta.
  change (cameraPosition hit_frame) with hit_camera.
  rewrite ray_start, Hn. reflexivity.
Qed.

Lemma main_color_range_witness :
  exists n : vec3,
    getNormal hit_frame hit_camera = Some n /\
    rgb (main hit_frame hit_fragment)
    = Some (shade_spec hit_frame x_axis hit_camera n) /\
    (0 <= x3 (shade_spec hit_frame x_axis hit_camera n) <= 1.9 /\
     0 <= y3 (shade_spec hit_frame x_axis hit_camera n) <= 1.9 /\
     0 <= z3 (shade_spec hit_frame x_axis hit_camera n) <= 1.9).
Proof.
  destruct hit_fragment_shaded as (n & Hn & Hrgb).
  exists n. split; [exact Hn |]. split; [exact Hrgb |].
  apply (main_color_range hit_frame hit_fragment _ Hrgb).
Defined.

(** ** Beyond the maximum distance *)









(** ** Time in the palette *)

(** X15: time enters the palette only as a shift of its argument, the
    same for the three channels: the palette at time [s] is the palette at
    time 0 with the argument advanced by [s * 0.1]. *)
Theorem palette_time_shift (u : uniforms) (t : R) :
  palette u t = palette (at_time u 0) (t + time u * 0.1).
Proof.
  rewrite !palette_components. unfold at_time. cbn [time].
  f_equal; apply cos_wave_ext; lra.
Qed.

(** ** The radius the loop ends with is bounded *)

Lemma cauchy_schwarz4 (a b : vec4) :
  (x4 a * x4 b + y4 a * y4 b + z4 a * z4 b + w4 a * w4 b)
  * (x4 a * x4 b + y4 a * y4 b + z4 a * z4 b + w4 a * w4 b)
  <= q_norm2 a * q_norm2 b.
Proof.
  unfold q_norm2.
  assert (H : (x4 a * x4 a + y4 a * y4 a + z4 a * z4 a + w4 a * w4 a)
              * (x4 b * x4 b + y4 b * y4 b + z4 b * z4 b + w4 b * w4 b)
              - (x4 a * x4 b + y4 a * y4 b + z4 a * z4 b + w4 a * w4 b)
                * (x4 a * x4 b + y4 a * y4 b + z4 a * z4 b + w4 a * w4 b)
              = (x4 a * y4 b - y4 a * x4 b) * (x4 a * y4 b - y4 a * x4 b)
                + (x4 a * z4 b - z4 a * x4 b) * (x4 a * z4 b - z4 a * x4 b)
                + (x4 a * w4 b - w4 a * x4 b) * (x4 a * w4 b - w4 a * x4 b)
                + (y4 a * z4 b - z4 a * y4 b) * (y4 a * z4 b - z4 a * y4 b)
                + (y4 a * w4 b - w4 a * y4 b) * (y4 a * w4 b - w4 a * y4 b)
                + (z4 a * w4 b - w4 a * z4 b) * (z4 a * w4 b - w4 a * z4 b))
    by ring.
  pose proof (Rle_0_sqr (x4 a * y4 b - y4 a * x4 b)) as S1.
  pose proof (Rle_0_sqr (x4 a * z4 b - z4 a * x4 b)) as S2.
  pose proof (Rle_0_sqr (x4 a * w4 b - w4 a * x4 b)) as S3.
  pose proof (Rle_0_sqr (y4 a * z4 b - z4 a * y4 b)) as S4.
  pose proof (Rle_0_sqr (y4 a * w4 b - w4 a * y4 b)) as S5.
  pose proof (Rle_0_sqr (z4 a * w4 b - w4 a * z4 b)) as S6.
  unfold Rsqr in *. lra.
Qed.

(** The triangle inequality for the length of quaternions. *)
Lemma length4_triangle (a b : vec4) :
  Glsl.length4 (Glsl.add4 a b) <= Glsl.length4 a + Glsl.length4 b.
Proof.
  pose proof (length4_nonneg a) as Ha.
  pose proof (length4_nonneg b) as Hb.
  pose proof (length4_nonneg (Glsl.add4 a b)) as Hab.
  pose proof (length4_square a) as Sa.
  pose proof (length4_square b) as Sb.
  pose proof (length4_square (Glsl.add4 a b)) as Sab.
  pose proof (cauchy_schwarz4 a b) as Hcs. unfold q_norm2 in Hcs.
  rewrite <- Sa, <- Sb in Hcs.
  set (la := Glsl.length4 a) in *. set (lb := Glsl.length4 b) in *.
  set (lab := Glsl.length4 (Glsl.add4 a b)) in *.
  set (d := x4 a * x4 b + y4 a * y4 b + z4 a * z4 b + w4 a * w4 b) in *.
  assert (Hd : d <= la * lb).
  { destruct (Rle_dec d (la * lb)) as [H | H]; [exact H |].
    exfalso. assert (0 <= la * lb) by nra. nra. }
  assert (Hsq : lab * lab = la * la + lb * lb + 2 * d).
  { rewrite Sab, Sa, Sb. unfold d. simpl. ring. }
  destruct (Rle_dec lab (la + lb)) as [H | H]; [exact H |].
  exfalso. assert (0 <= la + lb) by lra. nra.
Qed.

Lemma DE_loop_radius_le (n : nat) :
  forall (c z : vec4) (dr r : R),
    Glsl.length4 z <= 16 + Glsl.length4 c ->
    r <= 16 + Glsl.length4 c ->
    fst (DE_loop n c z dr r) <= 16 + Glsl.length4 c.
Proof.
  induction n as [| n IH]; intros c z dr r Hz Hr.
  - exact Hr.
  - rewrite DE_loop_S.
    destruct (Rlt_dec 4.0 (Glsl.length4 z)) as [_ | Hin].
    + exact Hz.
    + pose proof (length4_nonneg z) as Hz0.
      pose proof (length4_nonneg c) as Hc0.
      apply IH; [| lra].
      apply Rle_trans with (1 := length4_triangle (qmul z z) c).
      assert (Hsq : Glsl.length4 (qmul z z)
                    = Glsl.length4 z * Glsl.length4 z).
      { unfold Glsl.length4 at 1.
        fold (q_norm2 (qmul z z)). rewrite q_norm2_mult.
        rewrite sqrt_mult by apply norm2_nonneg. reflexivity. }
      rewrite Hsq. nra.
Qed.

(** X12: for a point within 4 of the origin the radius with which the
    loop of [DE] is left is at most 16 plus the length of the constant:
    the radius is tested against 4 before every update, and an update
    squares it and adds at most the length of the (rotated) constant. *)
Theorem DE_radius_bound (u : uniforms) (pos : vec3) :
  Glsl.length pos <= 4 ->
  0 <= DE_radius u pos <= 16 + Glsl.length4 (quaternionC u).
Proof.
  intros Hpos. split; [apply DE_radius_nonneg |].
  rewrite <- rotated_c_norm. unfold DE_radius, DE_exit.
  pose proof (length4_nonneg (rotated_c u)) as Hc.
  apply DE_loop_radius_le; [| lra].
  replace (Glsl.length4 (Glsl.lift4 pos 0.0)) with (Glsl.length pos).
  - lra.
  - unfold Glsl.length4, Glsl.length, Glsl.lift4. simpl. f_equal. lra.
Qed.

Lemma DE_radius_bound_witness :
  0 <= DE_radius first_frame origin
  <= 16 + Glsl.length4 (quaternionC first_frame).
Proof.
  apply DE_radius_bound.
  unfold origin. rewrite length_zero_vector. lra.
Defined.
